(** * pr-bridge: the comment-threading and rendering pipeline of [formatter.py]

    A shallow embedding of [src/pr_bridge/formatter.py] and of the record
    [PRInfo] of [src/pr_bridge/fetcher.py], followed by the properties of
    the thread builder, the resolution policy, the filter stage and the
    renderer.

    Conventions of the embedding:
    - a Python [str] is a list of Unicode code points ([str := list N]), so
      that [len], slicing and comparison count and compare code points as
      Python does;
    - a Python [int] is a [Z];
    - a raw JSON object read by the formatter is a record with one optional
      field per key the code reads: [None] is an absent key (for the keys
      read through [x.get(k) or d], where absence and JSON null behave
      alike, it stands for both);
    - a raised exception is the [Raise] case of [result];
    - [dict[int, ...]] is a [gmap Z ...]. *)

From Stdlib Require Import ZArith NArith List Ascii String DecimalString.
From stdpp Require Import base option list gmap sorting.

Local Open Scope Z_scope.

(** ** Python strings *)

Definition char : Type := N.
Definition str : Type := list char.

(** An ASCII literal of the source, as a list of code points. *)
Fixpoint lit (s : string) : str :=
  match s with
  | EmptyString => []
  | String a s' => N_of_ascii a :: lit s'
  end.

(** The non-ASCII characters which the source's literals use. *)
Definition NL : str := [10%N].            (* "\n" *)
Definition MIDDLE_DOT : str := [183%N].   (* U+00B7 *)
Definition EM_DASH : str := [8212%N].     (* U+2014 *)
Definition ELLIPSIS : str := [8230%N].    (* U+2026 *)
Definition RIGHT_ARROW : str := [8594%N]. (* U+2192 *)

(** [str(n)] and [f"{n}"] for an [int]. *)
Definition str_of_int (n : Z) : str :=
  lit (NilZero.string_of_int (Z.to_int n)).

(** [sep.join(parts)] *)
Fixpoint join (sep : str) (parts : list str) : str :=
  match parts with
  | [] => []
  | [p] => p
  | p :: ps => p ++ sep ++ join sep ps
  end.

(** [s.startswith(p)] *)
Fixpoint startswith (p s : str) : bool :=
  match p, s with
  | [], _ => true
  | _ :: _, [] => false
  | a :: p', b :: s' => (a =? b)%N && startswith p' s'
  end.

(** [needle in s] for strings. *)
Fixpoint contains (needle s : str) : bool :=
  startswith needle s ||
  match s with
  | [] => false
  | _ :: s' => contains needle s'
  end.

(** The characters on which [str.splitlines] breaks a line:
    LF, VT, FF, CR, FS, GS, RS, NEL, LINE SEPARATOR, PARAGRAPH SEPARATOR. *)
Definition is_linebreak (c : char) : bool :=
  ((10 <=? c) && (c <=? 13) || (28 <=? c) && (c <=? 30) ||
   (c =? 133) || (c =? 8232) || (c =? 8233))%N.

(** The characters which [str.strip] and [str.rstrip] remove when called
    without argument (those for which [str.isspace] holds). *)
Definition is_space (c : char) : bool :=
  ((9 <=? c) && (c <=? 13) || (28 <=? c) && (c <=? 32) ||
   (c =? 133) || (c =? 160) || (c =? 5760) ||
   (8192 <=? c) && (c <=? 8202) || (c =? 8232) || (c =? 8233) ||
   (c =? 8239) || (c =? 8287) || (c =? 12288))%N.

(** [s.splitlines()]: [cur] is the line being read.  A line is emitted at
    each line break (CR LF counting as one), and at the end of the string
    when characters are pending; no empty last line is produced. *)
Fixpoint splitlines_from (cur : str) (s : str) : list str :=
  match s with
  | [] => match cur with [] => [] | _ :: _ => [cur] end
  | c :: s' =>
      if is_linebreak c then
        cur :: match s' with
               | c' :: s'' =>
                   if ((c =? 13) && (c' =? 10))%N
                   then splitlines_from [] s''
                   else splitlines_from [] s'
               | [] => splitlines_from [] s'
               end
      else splitlines_from (cur ++ [c]) s'
  end.

Definition splitlines (s : str) : list str := splitlines_from [] s.

Fixpoint lstrip (s : str) : str :=
  match s with
  | c :: s' => if is_space c then lstrip s' else s
  | [] => []
  end.

Definition rstrip (s : str) : str := rev (lstrip (rev s)).

Definition strip (s : str) : str := rstrip (lstrip s).

(** [l[start:]] for a list, with Python's treatment of a negative or
    out-of-range start. *)
Definition slice_from {A} (start : Z) (l : list A) : list A :=
  let n := Z.of_nat (length l) in
  let s := if start <? 0 then Z.max (n + start) 0 else Z.min start n in
  drop (Z.to_nat s) l.

(** [x or d] where [x] is [None] or a string. *)
Definition or_str (x : option str) (d : str) : str :=
  match x with
  | Some (c :: s) => c :: s
  | _ => d
  end.

(** [x or y] where both are [None] or an [int]: [x] when it is truthy
    (an integer other than 0), [y] otherwise. *)
Definition or_int (x y : option Z) : option Z :=
  match x with
  | Some n => if n =? 0 then y else Some n
  | None => y
  end.

(** ** Exceptions *)

Inductive PyError : Type :=
| KeyError (key : string).

Inductive result (A : Type) : Type :=
| Ok (a : A)
| Raise (e : PyError).
Arguments Ok {A} a.
Arguments Raise {A} e.

Definition bind {A B} (m : result A) (k : A -> result B) : result B :=
  match m with
  | Ok a => k a
  | Raise e => Raise e
  end.

Notation "x <- m ;; k" := (bind m (fun x => k))
  (at level 100, m at next level, right associativity).

(** [d[key]] on a raw object: [KeyError] when the key is absent. *)
Definition getitem {A} (key : string) (field : option A) : result A :=
  match field with
  | Some a => Ok a
  | None => Raise (KeyError key)
  end.

(** ** Data model *)

(** The ["user"] object of a raw record. *)
Record RawUser := { login : option str }.

(** A raw inline review comment (one element of [raw_comments]). *)
Module RawComment.
Record t := mk {
  id : option Z;
  user : option RawUser;
  body : option str;
  path : option str;
  original_line : option Z;
  line : option Z;
  diff_hunk : option str;
  created_at : option str;
  html_url : option str;
  in_reply_to_id : option Z;
  author_association : option str }.
End RawComment.

Module ReviewComment.
Record t := mk {
  id : Z;
  author : str;
  body : str;
  path : str;
  line : option Z;
  diff_hunk : str;
  created_at : str;
  html_url : str;
  in_reply_to_id : option Z;
  is_suggestion : bool;
  author_association : str }.
End ReviewComment.

Module CommentThread.
Record t := mk {
  root : ReviewComment.t;
  replies : list ReviewComment.t }.

(** [len(self.replies) > 0] *)
Definition is_resolved (self : t) : bool :=
  Z.of_nat (length (replies self)) >? 0.
End CommentThread.

(** ** Helpers *)

Definition _clean_body (body : str) : str :=
  strip (join NL (map rstrip (splitlines body))).

Definition _is_suggestion (body : str) : bool :=
  contains (lit "```suggestion") body.

Definition _extract_diff_hunk_tail (diff_hunk : str) (context_lines : Z) : str :=
  let lines := splitlines diff_hunk in
  if Z.of_nat (length lines) >? context_lines
  then join NL (slice_from (- context_lines) lines)
  else diff_hunk.

(** The default value of the parameter [context_lines]. *)
Definition default_context_lines : Z := 6.

(** ** Thread builder *)

(** The [ReviewComment(...)] constructor call of the loop body; its
    arguments are evaluated in order, so a missing ["id"] is reported
    before a missing ["user"]. *)
Definition make_comment (raw : RawComment.t) : result ReviewComment.t :=
  i <- getitem "id" (RawComment.id raw) ;;
  u <- getitem "user" (RawComment.user raw) ;;
  a <- getitem "login" (login u) ;;
  Ok {| ReviewComment.id := i;
        ReviewComment.author := a;
        ReviewComment.body := _clean_body (or_str (RawComment.body raw) []);
        ReviewComment.path := default [] (RawComment.path raw);
        ReviewComment.line :=
          or_int (RawComment.original_line raw) (RawComment.line raw);
        ReviewComment.diff_hunk := default [] (RawComment.diff_hunk raw);
        ReviewComment.created_at := default [] (RawComment.created_at raw);
        ReviewComment.html_url := default [] (RawComment.html_url raw);
        ReviewComment.in_reply_to_id := RawComment.in_reply_to_id raw;
        ReviewComment.is_suggestion :=
          _is_suggestion (or_str (RawComment.body raw) []);
        ReviewComment.author_association :=
          default [] (RawComment.author_association raw) |}.

(** The three local variables which the first loop of [_build_threads]
    updates. *)
Record BuildState := {
  by_id : gmap Z ReviewComment.t;
  roots : list ReviewComment.t;
  replies : gmap Z (list ReviewComment.t) }.

Definition build_init : BuildState :=
  {| by_id := ∅; roots := []; replies := ∅ |}.

(** The part of the loop body which follows the constructor call. *)
Definition file_comment (st : BuildState) (comment : ReviewComment.t) : BuildState :=
  let by_id' := <[ReviewComment.id comment := comment]> (by_id st) in
  match ReviewComment.in_reply_to_id comment with
  | None =>
      {| by_id := by_id'; roots := roots st ++ [comment]; replies := replies st |}
  | Some parent =>
      (* replies.setdefault(parent, []).append(comment) *)
      {| by_id := by_id'; roots := roots st;
         replies := <[parent := default [] (replies st !! parent) ++ [comment]]>
                      (replies st) |}
  end.

Fixpoint build_loop (st : BuildState) (raw_comments : list RawComment.t)
  : result BuildState :=
  match raw_comments with
  | [] => Ok st
  | raw :: rest =>
      comment <- make_comment raw ;;
      build_loop (file_comment st comment) rest
  end.

(** The sort key [(t.root.path, t.root.line or 0)]. *)
Definition line_or_0 (l : option Z) : Z :=
  match l with
  | Some n => if n =? 0 then 0 else n
  | None => 0
  end.

Definition thread_key (t : CommentThread.t) : str * Z :=
  (ReviewComment.path (CommentThread.root t),
   line_or_0 (ReviewComment.line (CommentThread.root t))).

(** [a < b] on strings: by code point, a proper prefix being smaller. *)
Fixpoint str_ltb (a b : str) : bool :=
  match a, b with
  | _, [] => false
  | [], _ :: _ => true
  | x :: a', y :: b' => if (x =? y)%N then str_ltb a' b' else (x <? y)%N
  end.

(** [a < b] on the key tuples: the first components decide unless they are
    equal. *)
Definition key_ltb (a b : str * Z) : bool :=
  if bool_decide (fst a = fst b) then snd a <? snd b
  else str_ltb (fst a) (fst b).

(** [list.sort(key=...)]: the builtin sort is stable and compares keys with
    [<] only.  It is modelled by a stable insertion sort; [sort_by_unique]
    below shows that every stable ascending sort yields the same list. *)
Section Sort.
Context {A K : Type} (key : A -> K) (ltb : K -> K -> bool).

Fixpoint sort_insert (x : A) (l : list A) : list A :=
  match l with
  | [] => [x]
  | y :: l' =>
      if ltb (key y) (key x) then y :: sort_insert x l' else x :: y :: l'
  end.

(** Elements are inserted from the last to the first, each one after the
    elements of strictly smaller key only, hence before the later
    elements of equal key. *)
Fixpoint sort_by (l : list A) : list A :=
  match l with
  | [] => []
  | x :: l' => sort_insert x (sort_by l')
  end.
End Sort.

Definition _build_threads (raw_comments : list RawComment.t)
  : result (list CommentThread.t) :=
  st <- build_loop build_init raw_comments ;;
  let threads :=
    map (fun root =>
           {| CommentThread.root := root;
              CommentThread.replies :=
                default [] (replies st !! ReviewComment.id root) |})
        (roots st) in
  Ok (sort_by thread_key key_ltb threads).

(** ** Markdown rendering *)

(** [f"{x}"] for an [Optional[int]]. *)
Definition str_of_optional_int (x : option Z) : str :=
  match x with
  | Some n => str_of_int n
  | None => lit "None"
  end.

(** [PRInfo] of [fetcher.py]. *)
Module PRInfo.
Record t := mk {
  owner : str;
  repo : str;
  number : Z;
  title : str;
  author : str;
  url : str;
  base_branch : str;
  head_branch : str;
  state : str;
  body : str }.
End PRInfo.

(** A raw review verdict (one element of [reviews]). *)
Module RawReview.
Record t := mk {
  user : option RawUser;
  state : option str;
  submitted_at : option str;
  body : option str }.
End RawReview.

(** A raw general comment (one element of [issue_comments]). *)
Module RawIssueComment.
Record t := mk {
  user : option RawUser;
  author_association : option str;
  created_at : option str;
  body : option str;
  html_url : option str }.
End RawIssueComment.

(** [x.get("user", {}).get("login")] *)
Definition user_login (u : option RawUser) : option str := u ≫= login.

(** The filter of [format_pr], lines 192-193. *)
Definition apply_filter (filter_mode : str) (threads : list CommentThread.t)
  : list CommentThread.t :=
  if bool_decide (filter_mode = lit "unresolved")
  then List.filter (fun t => negb (CommentThread.is_resolved t)) threads
  else threads.

(** The condition of the comprehension [meaningful_reviews]. *)
Definition is_meaningful (r : RawReview.t) : bool :=
  match RawReview.state r with
  | Some s =>
      bool_decide (s = lit "APPROVED") ||
      bool_decide (s = lit "CHANGES_REQUESTED") ||
      bool_decide (s = lit "DISMISSED")
  | None => false
  end &&
  negb (bool_decide (user_login (RawReview.user r) = Some (lit "ghost"))).

Section Render.
(** [str.lower], Python's Unicode lower-casing, is a parameter of the
    renderer: no property below depends on what it computes. *)
Variable lower : str -> str.

Definition _render_comment_body (comment : ReviewComment.t) (indent : str) : str :=
  let lines : list str := [] in
  let lines := lines ++
    [indent ++ lit "**@" ++ ReviewComment.author comment ++ lit "** (" ++
     lower (ReviewComment.author_association comment) ++ lit ") " ++
     MIDDLE_DOT ++ lit " " ++ take 10 (ReviewComment.created_at comment)] in
  let lines := lines ++
    [indent ++ lit "[view on GitHub](" ++ ReviewComment.html_url comment ++
     lit ")"] in
  let lines := lines ++ [[]] in
  let lines := lines ++
    map (fun line => indent ++ line) (splitlines (ReviewComment.body comment)) in
  join NL lines.

(** The heading which [_render_thread] appends first. *)
Definition thread_heading (thread : CommentThread.t) (index : Z) : str :=
  let root := CommentThread.root thread in
  let status :=
    if CommentThread.is_resolved thread then lit "addressed"
    else lit "**OPEN**" in
  lit "### Thread " ++ str_of_int index ++ lit " " ++ EM_DASH ++ lit " `" ++
  ReviewComment.path root ++ lit "` (line " ++
  str_of_optional_int (ReviewComment.line root) ++ lit ") [" ++ status ++
  lit "]".

Definition _render_thread (thread : CommentThread.t) (index : Z) : str :=
  let root := CommentThread.root thread in
  let parts : list str := [] in
  let parts := parts ++ [thread_heading thread index] in
  let parts := parts ++ [[]] in
  let hunk_tail :=
    _extract_diff_hunk_tail (ReviewComment.diff_hunk root)
      default_context_lines in
  let parts := parts ++ [lit "**Diff context:**"] in
  let parts := parts ++ [lit "```diff"] in
  let parts := parts ++ [hunk_tail] in
  let parts := parts ++ [lit "```"] in
  let parts := parts ++ [[]] in
  let parts := parts ++ [_render_comment_body root []] in
  let parts := parts ++ [[]] in
  let parts :=
    match CommentThread.replies thread with
    | [] => parts
    | _ :: _ =>
        let parts := parts ++ [lit "**Replies:**"] in
        let parts := parts ++ [[]] in
        parts ++
        flat_map (fun reply =>
                    [_render_comment_body reply (lit "> "); lit ">"; []])
                 (CommentThread.replies thread)
    end in
  join NL parts.

(** Header block of [format_pr], lines 200-208. *)
Definition add_header (pr_info : PRInfo.t) (filter_mode : str)
    (lines : list str) : list str :=
  let lines := lines ++
    [lit "# PR #" ++ str_of_int (PRInfo.number pr_info) ++ lit ": " ++
     PRInfo.title pr_info] in
  let lines := lines ++ [[]] in
  let lines := lines ++
    [lit "- **Repository:** " ++ PRInfo.owner pr_info ++ lit "/" ++
     PRInfo.repo pr_info] in
  let lines := lines ++ [lit "- **Author:** @" ++ PRInfo.author pr_info] in
  let lines := lines ++ [lit "- **State:** " ++ PRInfo.state pr_info] in
  let lines := lines ++
    [lit "- **Branch:** `" ++ PRInfo.head_branch pr_info ++ lit "` " ++
     RIGHT_ARROW ++ lit " `" ++ PRInfo.base_branch pr_info ++ lit "`"] in
  let lines := lines ++ [lit "- **URL:** " ++ PRInfo.url pr_info] in
  let lines := lines ++ [lit "- **Filter:** " ++ filter_mode] in
  lines ++ [[]].

(** Body of the loop over [meaningful_reviews], lines 222-228. *)
Definition add_review (lines : list str) (r : RawReview.t) : list str :=
  let reviewer := default (lit "unknown") (user_login (RawReview.user r)) in
  let state := default [] (RawReview.state r) in
  let submitted := take 10 (or_str (RawReview.submitted_at r) []) in
  let body := _clean_body (or_str (RawReview.body r) []) in
  let lines := lines ++
    [lit "- **@" ++ reviewer ++ lit "** " ++ EM_DASH ++ lit " `" ++ state ++
     lit "` (" ++ submitted ++ lit ")"] in
  match body with
  | [] => lines
  | _ :: _ =>
      lines ++
      [lit "  > " ++ take 200 body ++
       (if Z.of_nat (length body) >? 200 then ELLIPSIS else [])]
  end.

(** Review summaries block, lines 213-229. *)
Definition add_reviews (reviews : list RawReview.t) (lines : list str)
  : list str :=
  let meaningful_reviews := List.filter is_meaningful reviews in
  match meaningful_reviews with
  | [] => lines
  | _ :: _ =>
      let lines := lines ++ [lit "## Review Summaries"] in
      let lines := lines ++ [[]] in
      let lines := fold_left add_review meaningful_reviews lines in
      lines ++ [[]]
  end.

(** The loop over [threads], lines 250-257, with its three variables. *)
Fixpoint render_threads (threads : list CommentThread.t)
    (current_file : option str) (thread_index : Z) (lines : list str)
  : list str :=
  match threads with
  | [] => lines
  | thread :: rest =>
      let p := ReviewComment.path (CommentThread.root thread) in
      if bool_decide (Some p ≠ current_file) then
        let lines := lines ++ [lit "---"] in
        let lines := lines ++ [lit "## File: `" ++ p ++ lit "`"] in
        let lines := lines ++ [[]] in
        let lines := lines ++ [_render_thread thread thread_index] in
        render_threads rest (Some p) (thread_index + 1) lines
      else
        let lines := lines ++ [_render_thread thread thread_index] in
        render_threads rest current_file (thread_index + 1) lines
  end.

(** Inline review threads block, lines 234-257. *)
Definition add_threads (threads : list CommentThread.t) (filter_mode : str)
    (lines : list str) : list str :=
  let lines := lines ++ [lit "## Inline Review Comments"] in
  let lines := lines ++ [[]] in
  match threads with
  | [] =>
      let lines := lines ++
        [lit "_No inline review comments found for the selected filter._"] in
      lines ++ [[]]
  | _ :: _ =>
      let lines := lines ++
        [lit "_" ++ str_of_int (Z.of_nat (length threads)) ++
         lit " thread(s) shown (" ++
         (if bool_decide (filter_mode = lit "unresolved")
          then lit "open only" else lit "all, including addressed") ++
         lit ")._"] in
      let lines := lines ++ [[]] in
      render_threads threads None 1 lines
  end.

(** Body of the loop over [issue_comments], lines 267-275. *)
Definition add_issue_comment (lines : list str) (c : RawIssueComment.t)
  : list str :=
  let author := default (lit "unknown") (user_login (RawIssueComment.user c)) in
  let association :=
    lower (default [] (RawIssueComment.author_association c)) in
  let created := take 10 (or_str (RawIssueComment.created_at c) []) in
  let body := _clean_body (or_str (RawIssueComment.body c) []) in
  let html_url := default [] (RawIssueComment.html_url c) in
  let lines := lines ++
    [lit "**@" ++ author ++ lit "** (" ++ association ++ lit ") " ++
     MIDDLE_DOT ++ lit " " ++ created ++ lit " " ++ MIDDLE_DOT ++
     lit " [view](" ++ html_url ++ lit ")"] in
  let lines := lines ++ [[]] in
  let lines := lines ++ [body] in
  lines ++ [[]].

(** General comments block, lines 262-275. *)
Definition add_issue_comments (issue_comments : list RawIssueComment.t)
    (lines : list str) : list str :=
  match issue_comments with
  | [] => lines
  | _ :: _ =>
      let lines := lines ++ [lit "---"] in
      let lines := lines ++ [lit "## General PR Comments"] in
      let lines := lines ++ [[]] in
      fold_left add_issue_comment issue_comments lines
  end.

(** The list [lines] of [format_pr] at its [return]. *)
Definition format_pr_lines (pr_info : PRInfo.t)
    (review_comments : list RawComment.t)
    (issue_comments : list RawIssueComment.t)
    (reviews : list RawReview.t) (filter_mode : str) : result (list str) :=
  threads <- _build_threads review_comments ;;
  let threads := apply_filter filter_mode threads in
  let lines : list str := [] in
  let lines := add_header pr_info filter_mode lines in
  let lines := add_reviews reviews lines in
  let lines := add_threads threads filter_mode lines in
  let lines := add_issue_comments issue_comments lines in
  Ok lines.

Definition format_pr (pr_info : PRInfo.t)
    (review_comments : list RawComment.t)
    (issue_comments : list RawIssueComment.t)
    (reviews : list RawReview.t) (filter_mode : str) : result str :=
  lines <- format_pr_lines pr_info review_comments issue_comments reviews
             filter_mode ;;
  Ok (join NL lines).
End Render.

(** ** Specification vocabulary *)

(** The lexicographic order on strings: a proper prefix comes first,
    otherwise the first differing code points decide. *)
Inductive lex_lt : str -> str -> Prop :=
| lex_lt_nil c b : lex_lt [] (c :: b)
| lex_lt_head x y a b : (x < y)%N -> lex_lt (x :: a) (y :: b)
| lex_lt_tail x a b : lex_lt a b -> lex_lt (x :: a) (x :: b).

(** Ascending order of the keys (path, line): lexicographic on the path,
    then numeric on the line. *)
Definition key_le (a b : str * Z) : Prop :=
  lex_lt (fst a) (fst b) \/ (fst a = fst b /\ snd a <= snd b).

Definition thread_le (t1 t2 : CommentThread.t) : Prop :=
  key_le (thread_key t1) (thread_key t2).

(** A raw comment which has the keys that [_build_threads] reads with
    [raw[...]]: ["id"], ["user"] and the user's ["login"]. *)
Definition has_required_keys (raw : RawComment.t) : bool :=
  match RawComment.id raw, RawComment.user raw ≫= login with
  | Some _, Some _ => true
  | _, _ => false
  end.

(** The comments of the input, in input order. *)
Fixpoint make_comments (raw_comments : list RawComment.t)
  : result (list ReviewComment.t) :=
  match raw_comments with
  | [] => Ok []
  | raw :: rest =>
      comment <- make_comment raw ;;
      comments <- make_comments rest ;;
      Ok (comment :: comments)
  end.

Definition is_root (c : ReviewComment.t) : Prop :=
  ReviewComment.in_reply_to_id c = None.

Definition replies_to (parent : Z) (c : ReviewComment.t) : Prop :=
  ReviewComment.in_reply_to_id c = Some parent.

Global Instance is_root_dec c : Decision (is_root c) :=
  decide (ReviewComment.in_reply_to_id c = None).

Global Instance replies_to_dec parent c : Decision (replies_to parent c) :=
  decide (ReviewComment.in_reply_to_id c = Some parent).

(** The threads before they are sorted: one per root, in input order, each
    with the comments that name the root's identifier as their parent, in
    input order. *)
Definition linked_threads (comments : list ReviewComment.t)
  : list CommentThread.t :=
  map (fun root =>
         {| CommentThread.root := root;
            CommentThread.replies :=
              filter (replies_to (ReviewComment.id root)) comments |})
      (filter is_root comments).

(** A reply whose parent identifier is the identifier of no root. *)
Definition dangling (comments : list ReviewComment.t) (c : ReviewComment.t)
  : Prop :=
  exists parent,
    ReviewComment.in_reply_to_id c = Some parent /\
    forall r, r ∈ comments -> is_root r -> ReviewComment.id r <> parent.

(** ** Sample inputs *)

Definition sample_user (name : string) : option RawUser :=
  Some {| login := Some (lit name) |}.

Definition sample_comment (i : Z) (file : string) (ln : option Z)
    (parent : option Z) (text : string) : RawComment.t :=
  {| RawComment.id := Some i;
     RawComment.user := sample_user "alice";
     RawComment.body := Some (lit text);
     RawComment.path := Some (lit file);
     RawComment.original_line := None;
     RawComment.line := ln;
     RawComment.diff_hunk := Some (lit "@@ -1 +1 @@");
     RawComment.created_at := Some (lit "2024-01-02T03:04:05Z");
     RawComment.html_url := Some (lit "https://example.org/c");
     RawComment.in_reply_to_id := parent;
     RawComment.author_association := Some (lit "MEMBER") |}.

(** Three roots (two of them on a.py), one reply to the root on b.py and
    one reply to an identifier that no comment carries. *)
Definition sample_comments : list RawComment.t :=
  [ sample_comment 1 "b.py" (Some 3) None "root on b";
    sample_comment 2 "a.py" None None "root on a";
    sample_comment 3 "b.py" (Some 3) (Some 1) "reply to 1";
    sample_comment 4 "a.py" (Some 7) (Some 99) "reply to nobody";
    sample_comment 5 "a.py" (Some 0) None "second root on a" ].

(** The last [n] elements of a list. *)
Definition last_n {A} (n : nat) (l : list A) : list A :=
  drop (length l - n) l.

(** A hunk of ten lines and a hunk of four lines. *)
Definition hunk_of_10_lines : str :=
  join NL [lit "@@ -1,9 +1,9 @@"; lit " a"; lit " b"; lit "-c"; lit "+C";
           lit " d"; lit " e"; lit " f"; lit "-g"; lit "+G"].

Definition hunk_of_4_lines : str :=
  join NL [lit "@@ -1,3 +1,3 @@"; lit " a"; lit "-b"; lit "+B"].

(** ** Vocabulary for the rendered document *)

(** The lines of a document which open the rendering of a thread. *)
Definition is_thread_entry (line : str) : bool :=
  startswith (lit "### Thread ") line.



(** The lines of one reviewer's entry in the review summaries. *)
Definition review_entry (r : RawReview.t) : list str := add_review [] r.

(** The preview line of a review body as the specification words it: the
    first 200 characters of the body, and the ellipsis when the body has
    more than 200 characters. *)
Definition preview_of (body : str) : str :=
  lit "  > " ++ take 200 body ++
  (if decide (200 < length body)%nat then ELLIPSIS else []).

(** An approved review of 250 characters, the last 60 of them spaces. *)
Definition body_of_250_chars : str :=
  replicate 190 120%N ++ replicate 60 32%N.

Definition sample_review : RawReview.t :=
  {| RawReview.user := sample_user "bob";
     RawReview.state := Some (lit "APPROVED");
     RawReview.submitted_at := Some (lit "2024-01-02T03:04:05Z");
     RawReview.body := Some body_of_250_chars |}.

Definition sample_pr : PRInfo.t :=
  {| PRInfo.owner := lit "octo";
     PRInfo.repo := lit "demo";
     PRInfo.number := 7;
     PRInfo.title := lit "Add parser";
     PRInfo.author := lit "carol";
     PRInfo.url := lit "https://example.org/pr/7";
     PRInfo.base_branch := lit "main";
     PRInfo.head_branch := lit "feature";
     PRInfo.state := lit "open";
     PRInfo.body := [] |}.

(** Lower-casing of the ASCII letters, an instance of the renderer's
    parameter. *)
Definition ascii_lower (s : str) : str :=
  map (fun c => if ((65 <=? c) && (c <=? 90))%N then (c + 32)%N else c) s.


(** The four blocks of the document for the threads [ts] of the builder. *)
Definition document_lines (lower : str -> str) (pr_info : PRInfo.t)
    (ts : list CommentThread.t) (issue_comments : list RawIssueComment.t)
    (reviews : list RawReview.t) (filter_mode : str) : list str :=
  add_header pr_info filter_mode [] ++
  add_reviews reviews [] ++
  add_threads lower (apply_filter filter_mode ts) filter_mode [] ++
  add_issue_comments lower issue_comments [].

(** ** Vocabulary for the further properties *)

(** The key whose absence [make_comment] reports: the keys are read in the
    order ["id"], ["user"], ["login"]. *)
Definition first_missing_key (raw : RawComment.t) : option string :=
  match RawComment.id raw with
  | None => Some "id"%string
  | Some _ =>
      match RawComment.user raw with
      | None => Some "user"%string
      | Some u =>
          match login u with
          | None => Some "login"%string
          | Some _ => None
          end
      end
  end.

(** The lines of a document which name a file group. *)
Definition is_group_heading (line : str) : bool :=
  startswith (lit "## File: `") line.

Definition group_heading_line (file : str) : str :=
  lit "## File: `" ++ file ++ lit "`".

(** The root paths for which the loop over the threads opens a group,
    [prev] being the value of [current_file]. *)
Fixpoint group_paths (prev : option str) (threads : list CommentThread.t)
  : list str :=
  match threads with
  | [] => []
  | t :: rest =>
      let file := ReviewComment.path (CommentThread.root t) in
      (if decide (prev = Some file) then [] else [file]) ++
      group_paths (Some file) rest
  end.

(** A root to which no comment of the list replies. *)
Definition unanswered_root (comments : list ReviewComment.t)
    (c : ReviewComment.t) : Prop :=
  is_root c /\
  length (filter (replies_to (ReviewComment.id c)) comments) = 0%nat.

Global Instance unanswered_root_dec comments c :
  Decision (unanswered_root comments c) :=
  and_dec _ _.

(** A thread without reply. *)
Definition sample_open_thread : CommentThread.t :=
  {| CommentThread.root :=
       {| ReviewComment.id := 2;
          ReviewComment.author := lit "alice";
          ReviewComment.body := lit "root on a";
          ReviewComment.path := lit "a.py";
          ReviewComment.line := None;
          ReviewComment.diff_hunk := lit "@@ -1 +1 @@";
          ReviewComment.created_at := lit "2024-01-02T03:04:05Z";
          ReviewComment.html_url := lit "https://example.org/c";
          ReviewComment.in_reply_to_id := None;
          ReviewComment.is_suggestion := false;
          ReviewComment.author_association := lit "MEMBER" |};
     CommentThread.replies := [] |}.

(** ** The command line: the number of threads reported *)

(** [s.count(sub)] for a non-empty [sub]: the occurrences are looked for
    from left to right and do not overlap; [skip] is the number of
    characters which the last occurrence counted still covers. *)
Fixpoint count_from (sub : str) (skip : nat) (s : str) : nat :=
  match s with
  | [] => 0
  | _ :: s' =>
      match skip with
      | S k => count_from sub k s'
      | O =>
          if startswith sub s
          then S (count_from sub (length sub - 1) s')
          else count_from sub 0 s'
      end
  end.

(** [s.count(sub)]; for the empty [sub] Python counts the positions. *)
Definition count (sub s : str) : nat :=
  match sub with
  | [] => S (length s)
  | _ :: _ => count_from sub 0 s
  end.

(** The number which [cmd_fetch] prints after "Threads shown:",
    [markdown.count('### Thread')]. *)
Definition threads_shown (markdown : str) : nat :=
  count (lit "### Thread") markdown.

(** The number of positions of [s] at which [sub] occurs. *)
Fixpoint occurrences (sub s : str) : nat :=
  match s with
  | [] => 0
  | _ :: s' => (if startswith sub s then 1 else 0) + occurrences sub s'
  end.

(** ** [parse_pr_url] of [fetcher.py] *)

Definition SLASH : char := 47%N.

(** [s.lstrip(chars)], [s.rstrip(chars)] and [s.strip(chars)]. *)
Fixpoint lstrip_chars (chars : list char) (s : str) : str :=
  match s with
  | c :: s' => if bool_decide (c ∈ chars) then lstrip_chars chars s' else s
  | [] => []
  end.

Definition rstrip_chars (chars : list char) (s : str) : str :=
  rev (lstrip_chars chars (rev s)).

Definition strip_chars (chars : list char) (s : str) : str :=
  rstrip_chars chars (lstrip_chars chars s).

(** [s.split(sep)] for a separator of one character; [cur] is the part
    being read.  The result is never empty: [''.split('/')] is ['']. *)
Fixpoint split_from (sep : char) (cur : str) (s : str) : list str :=
  match s with
  | [] => [cur]
  | c :: s' =>
      if (c =? sep)%N then cur :: split_from sep [] s'
      else split_from sep (cur ++ [c]) s'
  end.

Definition split (sep : char) (s : str) : list str := split_from sep [] s.

Section ParseUrl.
(** [urlparse(url).path] and [int(s)] ([None] when it raises
    [ValueError]) are parameters. *)
Variable url_path : str -> str.
Variable int_of_str : str -> option Z.

(** [parse_pr_url]; [None] stands for the error message followed by
    [sys.exit(1)]. *)
Definition parse_pr_url (url : str) : option (str * str * Z) :=
  let parts := split SLASH (strip_chars [SLASH] (url_path url)) in
  if (length parts <? 4)%nat ||
     negb (bool_decide (parts !! 2%nat = Some (lit "pull")))
  then None
  else
    match parts !! 0%nat, parts !! 1%nat, parts !! 3%nat with
    | Some owner, Some repo, Some number =>
        match int_of_str number with
        | Some pr_number => Some (owner, repo, pr_number)
        | None => None
        end
    | _, _, _ => None
    end.
End ParseUrl.

(** A parameter for [urlparse(url).path] on the sample URL: what follows
    the host. *)
Definition sample_url_path (url : str) : str :=
  drop (length (lit "https://github.com")) url.

(** A parameter for [int] on digit strings. *)
Definition sample_int_of_str (s : str) : option Z :=
  if forallb (fun c => (48 <=? c) && (c <=? 57))%N s && negb (bool_decide (s = []))
  then Some (fold_left (fun n c => 10 * n + (Z.of_N c - 48)) s 0)
  else None.

(** The sort key of the thread of a root comment. *)
Definition comment_key (c : ReviewComment.t) : str * Z :=
  (ReviewComment.path c, line_or_0 (ReviewComment.line c)).

(** The thread of a root among the comments of the input. *)
Definition thread_of (comments : list ReviewComment.t)
    (root : ReviewComment.t) : CommentThread.t :=
  {| CommentThread.root := root;
     CommentThread.replies :=
       filter (replies_to (ReviewComment.id root)) comments |}.

(** Three comments with roots of different keys. *)
Definition sample_distinct : list RawComment.t :=
  [ sample_comment 1 "b.py" (Some 3) None "root on b";
    sample_comment 2 "a.py" None None "root on a";
    sample_comment 3 "b.py" (Some 3) (Some 1) "reply to 1" ].

(** A record without ["user"], a record without ["id"], a thread with a
    reply to a reply, and two roots which carry the same identifier. *)
Definition sample_without_user : RawComment.t :=
  {| RawComment.id := Some 8;
     RawComment.user := None;
     RawComment.body := Some (lit "anonymous");
     RawComment.path := Some (lit "a.py");
     RawComment.original_line := None;
     RawComment.line := Some 1;
     RawComment.diff_hunk := None;
     RawComment.created_at := None;
     RawComment.html_url := None;
     RawComment.in_reply_to_id := None;
     RawComment.author_association := None |}.

Definition sample_without_id : RawComment.t :=
  {| RawComment.id := None;
     RawComment.user := sample_user "alice";
     RawComment.body := None;
     RawComment.path := None;
     RawComment.original_line := None;
     RawComment.line := None;
     RawComment.diff_hunk := None;
     RawComment.created_at := None;
     RawComment.html_url := None;
     RawComment.in_reply_to_id := None;
     RawComment.author_association := None |}.

Definition sample_nested : list RawComment.t :=
  [ sample_comment 1 "a.py" (Some 1) None "root";
    sample_comment 2 "a.py" (Some 1) (Some 1) "reply to the root";
    sample_comment 3 "a.py" (Some 1) (Some 2) "reply to the reply" ].

Definition sample_shared : list RawComment.t :=
  [ sample_comment 1 "a.py" (Some 1) None "first root";
    sample_comment 1 "b.py" (Some 1) None "second root";
    sample_comment 2 "a.py" (Some 1) (Some 1) "reply to 1" ].

(** * Properties *)

(** ** The order on keys *)

Lemma str_ltb_lex_lt a b : str_ltb a b = true <-> lex_lt a b.
Proof.
  revert b. induction a as [|x a IH]; intros [|y b]; simpl.
  - split; [discriminate | inversion 1].
  - split; [constructor | reflexivity].
  - split; [discriminate | inversion 1].
  - destruct (N.eqb_spec x y) as [->|Hne].
    + rewrite IH. split; [by constructor |].
      inversion 1; subst; [lia | done].
    + rewrite N.ltb_lt. split; [by constructor |].
      inversion 1; subst; [done | congruence].
Qed.

Lemma lex_lt_irrefl a : ~ lex_lt a a.
Proof. induction a; inversion 1; subst; [lia | auto]. Qed.

Lemma lex_lt_trans a b c : lex_lt a b -> lex_lt b c -> lex_lt a c.
Proof.
  intros Hab. revert c. induction Hab; intros c' Hbc; inversion Hbc; subst.
  - constructor.
  - constructor.
  - constructor. lia.
  - by constructor.
  - by constructor.
  - apply lex_lt_tail. auto.
Qed.

Lemma lex_lt_total a b : lex_lt a b \/ a = b \/ lex_lt b a.
Proof.
  revert b. induction a as [|x a IH]; intros [|y b].
  - auto.
  - left. constructor.
  - right. right. constructor.
  - destruct (N.lt_trichotomy x y) as [?|[->|?]].
    + left. by constructor.
    + destruct (IH b) as [?|[->|?]]; [left | auto | right; right];
        by constructor.
    + right. right. by constructor.
Qed.

Lemma key_ltb_irrefl k : key_ltb k k = false.
Proof.
  unfold key_ltb. rewrite bool_decide_eq_true_2 by done. apply Z.ltb_irrefl.
Qed.

Lemma key_ltb_le a b : key_ltb a b = true -> key_le a b.
Proof.
  unfold key_ltb, key_le. case_bool_decide as Heq.
  - rewrite Z.ltb_lt. right. split; [done | lia].
  - rewrite str_ltb_lex_lt. auto.
Qed.

Lemma key_nltb_le a b : key_ltb a b = false -> key_le b a.
Proof.
  unfold key_ltb, key_le. case_bool_decide as Heq.
  - rewrite Z.ltb_ge. auto.
  - intros Hlt. destruct (lex_lt_total (fst a) (fst b)) as [H|[H|H]].
    + apply str_ltb_lex_lt in H. congruence.
    + done.
    + auto.
Qed.

Lemma key_le_trans a b c : key_le a b -> key_le b c -> key_le a c.
Proof.
  unfold key_le. intros [H1|[E1 H1]] [H2|[E2 H2]].
  - left. eapply lex_lt_trans; eauto.
  - left. by rewrite <- E2.
  - left. by rewrite E1.
  - right. split; [congruence | lia].
Qed.

Lemma key_le_antisym a b : key_le a b -> key_le b a -> a = b.
Proof.
  destruct a as [p1 l1], b as [p2 l2]. unfold key_le. simpl.
  intros [H1|[E1 H1]] [H2|[E2 H2]].
  - destruct (lex_lt_irrefl p1). eapply lex_lt_trans; eauto.
  - subst. by destruct (lex_lt_irrefl p1).
  - subst. by destruct (lex_lt_irrefl p2).
  - f_equal; [done | lia].
Qed.

(** ** The stable sort *)

Section SortProps.
Context {A K : Type} `{EqDecision K}.
Context (key : A -> K) (ltb : K -> K -> bool) (le : K -> K -> Prop).
Hypothesis ltb_irrefl : forall a, ltb a a = false.
Hypothesis ltb_le : forall a b, ltb a b = true -> le a b.
Hypothesis nltb_le : forall a b, ltb a b = false -> le b a.
Hypothesis le_trans : forall a b c, le a b -> le b c -> le a c.
Hypothesis le_antisym : forall a b, le a b -> le b a -> a = b.

Local Abbreviation R := (fun x y => le (key x) (key y)).
Local Abbreviation with_key k := (fun x => key x = k).

Lemma sort_insert_perm x l : sort_insert key ltb x l ≡ₚ x :: l.
Proof.
  induction l as [|y l IH]; simpl; [done |].
  destruct (ltb (key y) (key x)); [| done].
  rewrite IH. apply Permutation_swap.
Qed.

Lemma sort_by_perm l : sort_by key ltb l ≡ₚ l.
Proof.
  induction l as [|x l IH]; simpl; [done |].
  by rewrite sort_insert_perm, IH.
Qed.

Lemma sort_insert_sorted x l :
  StronglySorted R l -> StronglySorted R (sort_insert key ltb x l).
Proof.
  induction 1 as [|y l Hl IH Hy]; simpl.
  - repeat constructor.
  - destruct (ltb (key y) (key x)) eqn:Hlt.
    + constructor; [done |].
      rewrite sort_insert_perm. constructor; [by apply ltb_le | done].
    + apply nltb_le in Hlt.
      constructor; [by constructor |].
      constructor; [done |].
      eapply Forall_impl; [exact Hy |]. simpl. eauto.
Qed.

Lemma sort_by_sorted l : StronglySorted R (sort_by key ltb l).
Proof.
  induction l; simpl; [constructor | by apply sort_insert_sorted].
Qed.

Lemma sort_insert_filter k x l :
  filter (with_key k) (sort_insert key ltb x l) =
  filter (with_key k) (x :: l).
Proof.
  induction l as [|y l IH]; simpl; [done |].
  destruct (ltb (key y) (key x)) eqn:Hlt; [| done].
  rewrite !filter_cons, IH, filter_cons.
  destruct (decide (key y = k)) as [Hy|?], (decide (key x = k)) as [Hx|?];
    try done.
  rewrite Hy, Hx, ltb_irrefl in Hlt. done.
Qed.

(** Stability: the elements of any one key keep their order. *)
Lemma sort_by_stable k l :
  filter (with_key k) (sort_by key ltb l) = filter (with_key k) l.
Proof.
  induction l as [|x l IH]; simpl; [done |].
  by rewrite sort_insert_filter, !filter_cons, IH.
Qed.

(** Two ascending lists in which the elements of each key come in the
    same order are equal. *)
Lemma sorted_stable_unique l1 l2 :
  StronglySorted R l1 -> StronglySorted R l2 ->
  (forall k, filter (with_key k) l1 = filter (with_key k) l2) ->
  l1 = l2.
Proof.
  intros Hs1. revert l2.
  induction Hs1 as [|x l1 Hs1 IH Hx]; intros l2 Hs2 Hf.
  - destruct l2 as [|y l2]; [done |].
    specialize (Hf (key y)). rewrite filter_cons_True in Hf by done.
    done.
  - destruct Hs2 as [|y l2 Hs2 Hy].
    { specialize (Hf (key x)). rewrite filter_cons_True in Hf by done.
      done. }
    assert (key y = key x) as Hk.
    { destruct (decide (key y = key x)) as [|Hne]; [done |].
      apply le_antisym.
      - pose proof (Hf (key x)) as Hfx.
        rewrite filter_cons_True, filter_cons_False in Hfx by done.
        assert (x ∈ l2) as Hin.
        { eapply list_elem_of_filter. rewrite <- Hfx. left. }
        rewrite Forall_forall in Hy. by apply Hy.
      - pose proof (Hf (key y)) as Hfy.
        rewrite (filter_cons_True _ y), filter_cons_False in Hfy by done.
        assert (y ∈ l1) as Hin.
        { eapply list_elem_of_filter. rewrite Hfy. left. }
        rewrite Forall_forall in Hx. by apply Hx. }
    pose proof (Hf (key x)) as Hfx.
    rewrite !filter_cons_True in Hfx by done.
    injection Hfx as -> Hfx. f_equal. apply IH; [done |].
    intros k. destruct (decide (key y = k)) as [<-|Hne]; [done |].
    specialize (Hf k). by rewrite !filter_cons_False in Hf.
Qed.

(** Hence every stable ascending sort computes [sort_by]. *)
Lemma sort_by_unique l l' :
  StronglySorted R l' ->
  (forall k, filter (with_key k) l' = filter (with_key k) l) ->
  l' = sort_by key ltb l.
Proof.
  intros Hs Hf. apply sorted_stable_unique; [done | apply sort_by_sorted |].
  intros k. by rewrite sort_by_stable.
Qed.
End SortProps.

(** ** The thread builder *)

Lemma make_comment_ok raw :
  has_required_keys raw = true -> exists c, make_comment raw = Ok c.
Proof.
  unfold has_required_keys, make_comment.
  destruct (RawComment.id raw) as [i|]; [| done].
  destruct (RawComment.user raw) as [[[a|]]|]; simpl; try done.
  eauto.
Qed.

Lemma make_comment_raise raw :
  has_required_keys raw = false -> exists e, make_comment raw = Raise e.
Proof.
  unfold has_required_keys, make_comment.
  destruct (RawComment.id raw) as [i|]; [| simpl; eauto].
  destruct (RawComment.user raw) as [[[a|]]|]; simpl; try done; eauto.
Qed.

Lemma make_comment_fields raw c :
  make_comment raw = Ok c ->
  RawComment.id raw = Some (ReviewComment.id c) /\
  ReviewComment.in_reply_to_id c = RawComment.in_reply_to_id raw.
Proof.
  unfold make_comment.
  destruct (RawComment.id raw) as [i|]; [| done].
  destruct (RawComment.user raw) as [[[a|]]|]; simpl; try done.
  by intros [= <-].
Qed.

Lemma make_comments_ok raws :
  forallb has_required_keys raws = true -> exists cs, make_comments raws = Ok cs.
Proof.
  induction raws as [|raw raws IH]; simpl; [eauto |].
  intros [Hraw Hraws]%andb_prop.
  destruct (make_comment_ok _ Hraw) as [c ->].
  destruct (IH Hraws) as [cs ->]. simpl. eauto.
Qed.

Lemma make_comments_raise raws :
  forallb has_required_keys raws = false ->
  exists e, make_comments raws = Raise e.
Proof.
  induction raws as [|raw raws IH]; simpl; [done |].
  destruct (has_required_keys raw) eqn:Hraw; simpl.
  - intros Hraws. destruct (make_comment_ok _ Hraw) as [c ->].
    destruct (IH Hraws) as [e ->]. simpl. eauto.
  - intros _. destruct (make_comment_raise _ Hraw) as [e ->]. simpl. eauto.
Qed.

Lemma make_comments_ids raws cs :
  make_comments raws = Ok cs ->
  map RawComment.id raws = map (fun c => Some (ReviewComment.id c)) cs.
Proof.
  revert cs. induction raws as [|raw raws IH]; simpl; intros cs.
  - by intros [= <-].
  - destruct (make_comment raw) as [c|] eqn:Hc; [| done]. simpl.
    destruct (make_comments raws) as [cs'|]; [| done]. simpl.
    intros [= <-]. simpl. f_equal; [| by apply IH].
    by apply make_comment_fields in Hc as [-> _].
Qed.

(** The first loop reads the input once, in order. *)
Lemma build_loop_fold st raws :
  build_loop st raws =
  (cs <- make_comments raws ;; Ok (fold_left file_comment cs st)).
Proof.
  revert st. induction raws as [|raw raws IH]; intros st; simpl; [done |].
  destruct (make_comment raw) as [c|]; simpl; [| done].
  rewrite IH. by destruct (make_comments raws).
Qed.

Lemma fold_file_comment_roots cs st :
  roots (fold_left file_comment cs st) = roots st ++ filter is_root cs.
Proof.
  revert st. induction cs as [|c cs IH]; intros st; simpl.
  - by rewrite app_nil_r.
  - rewrite IH, filter_cons. unfold file_comment.
    destruct (decide (is_root c)) as [Hc|Hc]; unfold is_root in Hc.
    + rewrite Hc. simpl. by rewrite <- app_assoc.
    + by destruct (ReviewComment.in_reply_to_id c).
Qed.

Lemma fold_file_comment_replies cs st parent :
  default [] (replies (fold_left file_comment cs st) !! parent) =
  default [] (replies st !! parent) ++ filter (replies_to parent) cs.
Proof.
  revert st. induction cs as [|c cs IH]; intros st; simpl.
  - by rewrite app_nil_r.
  - rewrite IH, filter_cons. unfold file_comment.
    destruct (decide (replies_to parent c)) as [Hc|Hc]; unfold replies_to in Hc.
    + rewrite Hc. simpl. rewrite lookup_insert_eq. simpl.
      by rewrite <- app_assoc.
    + destruct (ReviewComment.in_reply_to_id c) as [p|]; simpl; [| done].
      rewrite lookup_insert_ne by congruence. done.
Qed.

(** [_build_threads] sorts the threads that link each root to the comments
    naming it, unless a required key is missing. *)
Lemma build_threads_eq raws :
  _build_threads raws =
  (cs <- make_comments raws ;;
   Ok (sort_by thread_key key_ltb (linked_threads cs))).
Proof.
  unfold _build_threads. rewrite build_loop_fold.
  destruct (make_comments raws) as [cs|]; simpl; [| done].
  f_equal. f_equal. unfold linked_threads.
  rewrite fold_file_comment_roots. simpl.
  apply map_ext. intros root. f_equal.
  rewrite fold_file_comment_replies. simpl. by rewrite lookup_empty.
Qed.

Lemma build_threads_ok raws :
  forallb has_required_keys raws = true ->
  exists cs, make_comments raws = Ok cs /\
    _build_threads raws = Ok (sort_by thread_key key_ltb (linked_threads cs)).
Proof.
  intros [cs Hcs]%make_comments_ok. exists cs. split; [done |].
  by rewrite build_threads_eq, Hcs.
Qed.

Lemma elem_of_sorted_threads t cs :
  t ∈ sort_by thread_key key_ltb (linked_threads cs) <->
  exists root, root ∈ cs /\ is_root root /\
    t = {| CommentThread.root := root;
           CommentThread.replies :=
             filter (replies_to (ReviewComment.id root)) cs |}.
Proof.
  rewrite (sort_by_perm thread_key key_ltb). unfold linked_threads.
  rewrite list_elem_of_fmap. split.
  - intros (root & -> & [Hroot Hin]%list_elem_of_filter). eauto.
  - intros (root & Hin & Hroot & ->). exists root.
    by rewrite list_elem_of_filter.
Qed.

Lemma make_comments_NoDup raws cs :
  make_comments raws = Ok cs ->
  NoDup (map RawComment.id raws) -> NoDup (map ReviewComment.id cs).
Proof.
  intros ->%make_comments_ids.
  rewrite <- (map_map ReviewComment.id Some cs).
  apply (NoDup_fmap_1 Some).
Qed.

Lemma linked_threads_roots cs :
  map CommentThread.root (linked_threads cs) = filter is_root cs.
Proof.
  unfold linked_threads. rewrite map_map. simpl. apply map_id.
Qed.

Lemma sorted_threads_root_ids_NoDup cs :
  NoDup (map ReviewComment.id cs) ->
  NoDup (map (fun t => ReviewComment.id (CommentThread.root t))
             (sort_by thread_key key_ltb (linked_threads cs))).
Proof.
  intros Hnd.
  rewrite (sort_by_perm thread_key key_ltb).
  rewrite <- (map_map CommentThread.root ReviewComment.id).
  rewrite linked_threads_roots.
  eapply sublist_NoDup; [exact Hnd |].
  apply (fmap_sublist ReviewComment.id), sublist_filter.
Qed.

(** C1.  When every record has its required keys and the identifiers are
    unique, [_build_threads] returns threads in which every root has no
    parent identifier, every reply names its thread's root as parent, no
    comment is a reply in two threads, and the replies of a thread are the
    comments naming its root, in input order. *)
Theorem build_threads_invariants (raws : list RawComment.t) :
  forallb has_required_keys raws = true ->
  NoDup (map RawComment.id raws) ->
  exists cs ts,
    make_comments raws = Ok cs /\ _build_threads raws = Ok ts /\
    (forall t, t ∈ ts ->
       ReviewComment.in_reply_to_id (CommentThread.root t) = None) /\
    (forall t r, t ∈ ts -> r ∈ CommentThread.replies t ->
       ReviewComment.in_reply_to_id r =
       Some (ReviewComment.id (CommentThread.root t))) /\
    (forall i j ti tj r,
       ts !! i = Some ti -> ts !! j = Some tj ->
       r ∈ CommentThread.replies ti -> r ∈ CommentThread.replies tj ->
       i = j) /\
    (forall t, t ∈ ts ->
       CommentThread.replies t =
         filter (replies_to (ReviewComment.id (CommentThread.root t))) cs /\
       sublist (CommentThread.replies t) cs).
Proof.
  intros Hkeys Hnd.
  destruct (build_threads_ok raws Hkeys) as (cs & Hcs & Hts).
  exists cs, (sort_by thread_key key_ltb (linked_threads cs)).
  assert (forall t r,
            t ∈ sort_by thread_key key_ltb (linked_threads cs) ->
            r ∈ CommentThread.replies t ->
            ReviewComment.in_reply_to_id r =
            Some (ReviewComment.id (CommentThread.root t))) as Hparent.
  { intros t r (root & _ & _ & ->)%elem_of_sorted_threads. simpl.
    by intros [Hr _]%list_elem_of_filter. }
  split_and!; try done.
  - by intros t (root & _ & Hroot & ->)%elem_of_sorted_threads.
  - intros i j ti tj r Hi Hj Hri Hrj.
    pose proof (sorted_threads_root_ids_NoDup cs
                  (make_comments_NoDup _ _ Hcs Hnd)) as Hids.
    eapply NoDup_lookup; [exact Hids | |].
    + rewrite list_lookup_fmap, Hi. reflexivity.
    + rewrite list_lookup_fmap, Hj. simpl.
      apply Hparent in Hri; [| by eapply list_elem_of_lookup_2].
      apply Hparent in Hrj; [| by eapply list_elem_of_lookup_2].
      congruence.
  - intros t (root & _ & _ & ->)%elem_of_sorted_threads. simpl.
    split; [done | apply sublist_filter].
Qed.

Lemma build_threads_invariants_witness :
  exists cs ts,
    make_comments sample_comments = Ok cs /\
    _build_threads sample_comments = Ok ts /\
    (forall t, t ∈ ts ->
       ReviewComment.in_reply_to_id (CommentThread.root t) = None) /\
    (forall t r, t ∈ ts -> r ∈ CommentThread.replies t ->
       ReviewComment.in_reply_to_id r =
       Some (ReviewComment.id (CommentThread.root t))) /\
    (forall i j ti tj r,
       ts !! i = Some ti -> ts !! j = Some tj ->
       r ∈ CommentThread.replies ti -> r ∈ CommentThread.replies tj ->
       i = j) /\
    (forall t, t ∈ ts ->
       CommentThread.replies t =
         filter (replies_to (ReviewComment.id (CommentThread.root t))) cs /\
       sublist (CommentThread.replies t) cs).
Proof.
  apply (build_threads_invariants sample_comments).
  - reflexivity.
  - refine (bool_decide_unpack _ _). vm_compute. exact I.
Defined.

Lemma line_or_0_default l : line_or_0 l = default 0 l.
Proof.
  destruct l as [n|]; simpl; [| done]. by destruct (Z.eqb_spec n 0).
Qed.

Lemma thread_key_fields t :
  thread_key t =
  (ReviewComment.path (CommentThread.root t),
   default 0 (ReviewComment.line (CommentThread.root t))).
Proof. unfold thread_key. by rewrite line_or_0_default. Qed.

Lemma StronglySorted_impl {A} (R1 R2 : relation A) l :
  (forall x y, R1 x y -> R2 x y) ->
  StronglySorted R1 l -> StronglySorted R2 l.
Proof.
  intros Himpl. induction 1 as [|x l _ IH Hx]; constructor; [done |].
  eapply Forall_impl; [exact Hx | auto].
Qed.

(** The roots of the unsorted threads of one key are the parentless
    comments of that path and line, in input order. *)
Lemma linked_threads_of_key cs p l :
  map CommentThread.root
    (filter (fun t => thread_key t = (p, l)) (linked_threads cs)) =
  filter (fun c => ReviewComment.in_reply_to_id c = None /\
                   ReviewComment.path c = p /\
                   default 0 (ReviewComment.line c) = l) cs.
Proof.
  unfold linked_threads. generalize cs at 1 as all. intros all.
  induction cs as [|c cs IH]; [done |].
  rewrite (filter_cons is_root).
  rewrite (filter_cons (fun c => ReviewComment.in_reply_to_id c = None /\ _)).
  destruct (decide (is_root c)) as [Hroot|Hroot]; unfold is_root in Hroot.
  - cbn [map]. rewrite filter_cons, thread_key_fields.
    cbn [CommentThread.root].
    destruct (decide ((ReviewComment.path c,
                       default 0 (ReviewComment.line c)) = (p, l)))
      as [Hkey|Hkey].
    + injection Hkey as Hp Hl.
      rewrite decide_True by done. cbn [map]. by rewrite IH.
    + rewrite decide_False; [apply IH |].
      intros (_ & Hp & Hl). apply Hkey. by rewrite Hp, Hl.
  - rewrite decide_False by tauto. apply IH.
Qed.

(** C2.  The threads are returned in ascending order of the pair made of
    the root's path and of the root's line, 0 standing for an absent line:
    paths are compared lexicographically, by code point, and lines
    numerically when the paths are equal.  This pair is the key which the
    code sorts by.  The roots of the threads of one path and line are the
    parentless comments of that path and line, in input order: ties keep
    the input order.  No other arrangement is ascending and
    order-preserving on equal keys, so nothing else breaks ties. *)
Theorem build_threads_sorted_stable (raws : list RawComment.t) :
  forallb has_required_keys raws = true ->
  exists cs ts,
    make_comments raws = Ok cs /\ _build_threads raws = Ok ts /\
    StronglySorted
      (fun t1 t2 =>
         lex_lt (ReviewComment.path (CommentThread.root t1))
                (ReviewComment.path (CommentThread.root t2)) \/
         (ReviewComment.path (CommentThread.root t1) =
          ReviewComment.path (CommentThread.root t2) /\
          default 0 (ReviewComment.line (CommentThread.root t1)) <=
          default 0 (ReviewComment.line (CommentThread.root t2))))
      ts /\
    (forall t,
       thread_key t =
       (ReviewComment.path (CommentThread.root t),
        default 0 (ReviewComment.line (CommentThread.root t)))) /\
    (forall p l,
       map CommentThread.root
         (filter (fun t =>
                    ReviewComment.path (CommentThread.root t) = p /\
                    default 0 (ReviewComment.line (CommentThread.root t)) = l)
                 ts) =
       filter (fun c => ReviewComment.in_reply_to_id c = None /\
                        ReviewComment.path c = p /\
                        default 0 (ReviewComment.line c) = l) cs) /\
    StronglySorted thread_le ts /\
    ts ≡ₚ linked_threads cs /\
    map CommentThread.root (linked_threads cs) = filter is_root cs /\
    (forall k,
       filter (fun t => thread_key t = k) ts =
       filter (fun t => thread_key t = k) (linked_threads cs)) /\
    (forall ts',
       StronglySorted thread_le ts' ->
       (forall k,
          filter (fun t => thread_key t = k) ts' =
          filter (fun t => thread_key t = k) (linked_threads cs)) ->
       ts' = ts).
Proof.
  intros Hkeys.
  destruct (build_threads_ok raws Hkeys) as (cs & Hcs & Hts).
  exists cs, (sort_by thread_key key_ltb (linked_threads cs)).
  assert (StronglySorted thread_le
            (sort_by thread_key key_ltb (linked_threads cs))) as Hsorted.
  { apply (sort_by_sorted thread_key key_ltb key_le);
      eauto using key_ltb_le, key_nltb_le, key_le_trans. }
  split_and!; try done.
  - eapply StronglySorted_impl; [| exact Hsorted].
    intros t1 t2. unfold thread_le, key_le.
    rewrite !thread_key_fields. simpl. tauto.
  - apply thread_key_fields.
  - intros p l. rewrite <- linked_threads_of_key.
    rewrite <- (sort_by_stable thread_key key_ltb key_ltb_irrefl (p, l)).
    f_equal. apply list_filter_iff. intros t.
    rewrite thread_key_fields. split.
    + by intros [-> ->].
    + by intros [= -> ->].
  - apply sort_by_perm.
  - apply linked_threads_roots.
  - intros k. apply sort_by_stable, key_ltb_irrefl.
  - intros ts' Hsorted' Hstable.
    apply (sort_by_unique thread_key key_ltb key_le);
      eauto using key_ltb_irrefl, key_ltb_le, key_nltb_le, key_le_trans,
        key_le_antisym.
Qed.

Lemma build_threads_sorted_stable_witness :
  exists cs ts,
    make_comments sample_comments = Ok cs /\
    _build_threads sample_comments = Ok ts /\
    StronglySorted
      (fun t1 t2 =>
         lex_lt (ReviewComment.path (CommentThread.root t1))
                (ReviewComment.path (CommentThread.root t2)) \/
         (ReviewComment.path (CommentThread.root t1) =
          ReviewComment.path (CommentThread.root t2) /\
          default 0 (ReviewComment.line (CommentThread.root t1)) <=
          default 0 (ReviewComment.line (CommentThread.root t2))))
      ts /\
    (forall t,
       thread_key t =
       (ReviewComment.path (CommentThread.root t),
        default 0 (ReviewComment.line (CommentThread.root t)))) /\
    (forall p l,
       map CommentThread.root
         (filter (fun t =>
                    ReviewComment.path (CommentThread.root t) = p /\
                    default 0 (ReviewComment.line (CommentThread.root t)) = l)
                 ts) =
       filter (fun c => ReviewComment.in_reply_to_id c = None /\
                        ReviewComment.path c = p /\
                        default 0 (ReviewComment.line c) = l) cs) /\
    StronglySorted thread_le ts /\
    ts ≡ₚ linked_threads cs /\
    map CommentThread.root (linked_threads cs) = filter is_root cs /\
    (forall k,
       filter (fun t => thread_key t = k) ts =
       filter (fun t => thread_key t = k) (linked_threads cs)) /\
    (forall ts',
       StronglySorted thread_le ts' ->
       (forall k,
          filter (fun t => thread_key t = k) ts' =
          filter (fun t => thread_key t = k) (linked_threads cs)) ->
       ts' = ts).
Proof.
  apply (build_threads_sorted_stable sample_comments). reflexivity.
Defined.

(** C5.  A reply whose parent identifier is the identifier of no root is in
    no thread's reply list, and [_build_threads] returns whether or not
    such replies are present: it only needs the required keys. *)
Theorem build_threads_drops_dangling (raws : list RawComment.t) :
  forallb has_required_keys raws = true ->
  exists cs ts,
    make_comments raws = Ok cs /\ _build_threads raws = Ok ts /\
    forall c, c ∈ cs -> dangling cs c ->
      forall t, t ∈ ts -> c ∉ CommentThread.replies t.
Proof.
  intros Hkeys.
  destruct (build_threads_ok raws Hkeys) as (cs & Hcs & Hts).
  exists cs, (sort_by thread_key key_ltb (linked_threads cs)).
  split_and!; try done.
  intros c _ (parent & Hparent & Hnone) t
    (root & Hin & Hroot & ->)%elem_of_sorted_threads.
  simpl. intros [Hc _]%list_elem_of_filter.
  apply (Hnone root Hin Hroot). unfold replies_to in Hc. congruence.
Qed.

Lemma build_threads_drops_dangling_witness :
  exists cs ts,
    make_comments sample_comments = Ok cs /\
    _build_threads sample_comments = Ok ts /\
    forall c, c ∈ cs -> dangling cs c ->
      forall t, t ∈ ts -> c ∉ CommentThread.replies t.
Proof.
  apply (build_threads_drops_dangling sample_comments). reflexivity.
Defined.

(** The only error of [_build_threads] is the missing required key. *)
Lemma build_threads_raise_iff raws :
  (exists e, _build_threads raws = Raise e) <->
  forallb has_required_keys raws = false.
Proof.
  rewrite build_threads_eq.
  destruct (forallb has_required_keys raws) eqn:Hkeys.
  - destruct (make_comments_ok _ Hkeys) as [cs ->]. simpl.
    split; [by intros [e ?] | done].
  - destruct (make_comments_raise _ Hkeys) as [e ->]. simpl.
    split; [done | eauto].
Qed.

(** ** Resolution policy and filter stage *)

Lemma is_resolved_false_iff t :
  CommentThread.is_resolved t = false <-> CommentThread.replies t = [].
Proof.
  unfold CommentThread.is_resolved. rewrite Z.gtb_ltb, Z.ltb_ge.
  destruct (CommentThread.replies t); simpl length; split; (done || lia).
Qed.

(** C3.  [is_resolved] holds exactly of the threads whose reply list is
    not empty, that is of length greater than zero; as a function of the
    thread alone it has a value for every thread. *)
Theorem is_resolved_iff_replies (t : CommentThread.t) :
  (CommentThread.is_resolved t = true <->
   (0 < length (CommentThread.replies t))%nat) /\
  (CommentThread.is_resolved t = true <-> CommentThread.replies t <> []) /\
  (CommentThread.is_resolved t = false <-> CommentThread.replies t = []).
Proof.
  pose proof (is_resolved_false_iff t) as Hfalse.
  rewrite <- length_zero_iff_nil in Hfalse.
  rewrite <- (length_zero_iff_nil (CommentThread.replies t)).
  destruct (CommentThread.is_resolved t); split_and!; split;
    intros; first [done | lia | tauto | (exfalso; intuition lia)].
Qed.

Lemma filter_unresolved threads :
  List.filter (fun t => negb (CommentThread.is_resolved t)) threads =
  filter (fun t => length (CommentThread.replies t) = 0%nat) threads.
Proof.
  induction threads as [|t threads IH]; simpl; [done |].
  rewrite filter_cons, IH.
  pose proof (is_resolved_false_iff t) as Hfalse.
  rewrite <- length_zero_iff_nil in Hfalse.
  destruct (CommentThread.is_resolved t); simpl.
  - rewrite decide_False; [done |]. intros Hlen. by apply Hfalse in Hlen.
  - rewrite decide_True; [done |]. by apply Hfalse.
Qed.

(** C4.  With mode "all" the filter returns its input; with mode
    "unresolved" it returns the threads with zero replies, all of them and
    in the order of the input. *)
Theorem apply_filter_modes (threads : list CommentThread.t) :
  apply_filter (lit "all") threads = threads /\
  apply_filter (lit "unresolved") threads =
    filter (fun t => length (CommentThread.replies t) = 0%nat) threads /\
  sublist (apply_filter (lit "unresolved") threads) threads /\
  (forall t, t ∈ apply_filter (lit "unresolved") threads <->
             t ∈ threads /\ length (CommentThread.replies t) = 0%nat).
Proof.
  assert (apply_filter (lit "unresolved") threads =
          filter (fun t => length (CommentThread.replies t) = 0%nat) threads)
    as Hun.
  { unfold apply_filter. rewrite bool_decide_eq_true_2 by done.
    apply filter_unresolved. }
  split_and!.
  - unfold apply_filter. by rewrite bool_decide_eq_false_2.
  - done.
  - rewrite Hun. apply sublist_filter.
  - intros t. rewrite Hun, list_elem_of_filter. tauto.
Qed.

(** ** Diff excerpt *)

Lemma slice_from_last_n {A} (n : nat) (l : list A) :
  (n < length l)%nat -> (0 < n)%nat ->
  slice_from (- Z.of_nat n) l = last_n n l.
Proof.
  intros Hlt Hpos. unfold slice_from, last_n.
  destruct (Z.ltb_spec (- Z.of_nat n) 0) as [_|?]; [| lia].
  f_equal. lia.
Qed.

(** C6.  With the default of 6 context lines, the excerpt of a hunk of more
    than 6 lines is made of its last 6 lines, joined by newlines, and the
    excerpt of a hunk of 6 lines or fewer is the hunk itself. *)
Theorem extract_diff_hunk_tail_spec (diff_hunk : str) :
  let lines := splitlines diff_hunk in
  ((6 < length lines)%nat ->
     _extract_diff_hunk_tail diff_hunk default_context_lines =
       join NL (last_n 6 lines) /\
     length (last_n 6 lines) = 6%nat /\
     lines = take (length lines - 6) lines ++ last_n 6 lines) /\
  ((length lines <= 6)%nat ->
     _extract_diff_hunk_tail diff_hunk default_context_lines = diff_hunk).
Proof.
  intros lines. unfold _extract_diff_hunk_tail, default_context_lines.
  fold lines. split.
  - intros Hlen.
    assert ((Z.of_nat (length lines) >? 6) = true) as ->
      by (rewrite Z.gtb_ltb, Z.ltb_lt; lia).
    split_and!.
    + f_equal. apply (slice_from_last_n 6); lia.
    + unfold last_n. rewrite length_drop. lia.
    + unfold last_n. by rewrite take_drop.
  - intros Hlen.
    assert ((Z.of_nat (length lines) >? 6) = false) as ->
      by (rewrite Z.gtb_ltb, Z.ltb_ge; lia).
    done.
Qed.

Lemma extract_diff_hunk_tail_witness :
  _extract_diff_hunk_tail hunk_of_10_lines default_context_lines =
    join NL [lit "+C"; lit " d"; lit " e"; lit " f"; lit "-g"; lit "+G"] /\
  _extract_diff_hunk_tail hunk_of_4_lines default_context_lines =
    hunk_of_4_lines.
Proof.
  split.
  - destruct (extract_diff_hunk_tail_spec hunk_of_10_lines) as [Hlong _].
    destruct Hlong as (-> & _ & _); [vm_compute; lia | reflexivity].
  - destruct (extract_diff_hunk_tail_spec hunk_of_4_lines) as [_ Hshort].
    apply Hshort. vm_compute. lia.
Defined.

(** ** The renderer: each block appends to [lines] *)

Lemma add_header_app pr_info filter_mode lines :
  add_header pr_info filter_mode lines =
  lines ++ add_header pr_info filter_mode [].
Proof. unfold add_header. simpl. by rewrite <- !app_assoc. Qed.

Lemma add_review_app lines r : add_review lines r = lines ++ review_entry r.
Proof.
  unfold review_entry, add_review.
  destruct (_clean_body _); simpl; [done |]. by rewrite <- app_assoc.
Qed.

Lemma fold_add_review_app rs lines :
  fold_left add_review rs lines = lines ++ flat_map review_entry rs.
Proof.
  revert lines. induction rs as [|r rs IH]; intros lines; simpl.
  - by rewrite app_nil_r.
  - by rewrite IH, add_review_app, <- app_assoc.
Qed.

Lemma add_reviews_app reviews lines :
  add_reviews reviews lines = lines ++ add_reviews reviews [].
Proof.
  unfold add_reviews. destruct (List.filter is_meaningful reviews) as [|r rs].
  - by rewrite app_nil_r.
  - rewrite !(fold_add_review_app (r :: rs)). simpl.
    by rewrite <- !app_assoc.
Qed.

Lemma render_threads_app lower threads current_file thread_index lines :
  render_threads lower threads current_file thread_index lines =
  lines ++ render_threads lower threads current_file thread_index [].
Proof.
  revert current_file thread_index lines.
  induction threads as [|t threads IH]; intros cur idx lines; simpl.
  - by rewrite app_nil_r.
  - case_bool_decide.
    + rewrite IH, (IH _ _ [_; _; _; _]). by rewrite <- !app_assoc.
    + rewrite IH, (IH _ _ [_]). by rewrite <- !app_assoc.
Qed.

Lemma add_threads_app lower threads filter_mode lines :
  add_threads lower threads filter_mode lines =
  lines ++ add_threads lower threads filter_mode [].
Proof.
  unfold add_threads. destruct threads as [|t threads].
  - simpl. by rewrite <- !app_assoc.
  - cbv zeta.
    rewrite render_threads_app, (render_threads_app _ _ _ _ (_ ++ [_])).
    simpl. by rewrite <- !app_assoc.
Qed.

Lemma fold_add_issue_comment_app lower cs lines :
  fold_left (add_issue_comment lower) cs lines =
  lines ++ fold_left (add_issue_comment lower) cs [].
Proof.
  revert lines. induction cs as [|c cs IH]; intros lines; simpl.
  - by rewrite app_nil_r.
  - rewrite IH, (IH (add_issue_comment lower [] c)).
    unfold add_issue_comment. simpl. by rewrite <- !app_assoc.
Qed.

Lemma add_issue_comments_app lower issue_comments lines :
  add_issue_comments lower issue_comments lines =
  lines ++ add_issue_comments lower issue_comments [].
Proof.
  unfold add_issue_comments. destruct issue_comments as [|c cs].
  - by rewrite app_nil_r.
  - cbv zeta.
    rewrite fold_add_issue_comment_app,
      (fold_add_issue_comment_app _ _ (_ ++ [_])).
    simpl. by rewrite <- !app_assoc.
Qed.

(** The document is made of four blocks, in this order: header, review
    summaries, inline threads, general comments. *)
Lemma format_pr_lines_blocks lower pr_info review_comments issue_comments
    reviews filter_mode :
  format_pr_lines lower pr_info review_comments issue_comments reviews
    filter_mode =
  (ts <- _build_threads review_comments ;;
   Ok (add_header pr_info filter_mode [] ++
       add_reviews reviews [] ++
       add_threads lower (apply_filter filter_mode ts) filter_mode [] ++
       add_issue_comments lower issue_comments [])).
Proof.
  unfold format_pr_lines.
  destruct (_build_threads review_comments) as [ts|]; simpl; [| done].
  rewrite add_issue_comments_app, add_threads_app, add_reviews_app.
  by rewrite <- !app_assoc.
Qed.

Lemma format_pr_ok lower pr_info review_comments issue_comments reviews
    filter_mode :
  forallb has_required_keys review_comments = true ->
  exists ts,
    _build_threads review_comments = Ok ts /\
    format_pr_lines lower pr_info review_comments issue_comments reviews
      filter_mode =
      Ok (document_lines lower pr_info ts issue_comments reviews filter_mode) /\
    format_pr lower pr_info review_comments issue_comments reviews
      filter_mode =
      Ok (join NL (document_lines lower pr_info ts issue_comments reviews
                     filter_mode)).
Proof.
  intros (cs & _ & Hts)%build_threads_ok. eexists. split; [exact Hts |].
  unfold format_pr. rewrite format_pr_lines_blocks, Hts. done.
Qed.

(** ** The renderer: threads *)

Lemma startswith_app p s : startswith p (p ++ s) = true.
Proof.
  induction p as [|c p IH]; simpl; [done |]. by rewrite N.eqb_refl, IH.
Qed.

Lemma render_thread_heading lower t index :
  exists rest,
    _render_thread lower t index = thread_heading t index ++ NL ++ rest.
Proof.
  unfold _render_thread.
  destruct (CommentThread.replies t); simpl; eauto.
Qed.

Lemma render_thread_is_entry lower t index :
  is_thread_entry (_render_thread lower t index) = true.
Proof.
  destruct (render_thread_heading lower t index) as [rest ->].
  unfold thread_heading, is_thread_entry. cbv zeta.
  rewrite <- (app_assoc (lit "### Thread ")). apply startswith_app.
Qed.

(** The entries of the loop's output are the renderings of the threads,
    numbered from the initial index on. *)
Lemma render_threads_entries lower threads current_file thread_index :
  List.filter is_thread_entry
    (render_threads lower threads current_file thread_index []) =
  imap (fun i t => _render_thread lower t (Z.of_nat i + thread_index)) threads.
Proof.
  revert current_file thread_index.
  induction threads as [|t threads IH]; intros cur idx; [done |].
  cbn [render_threads imap]. case_bool_decide.
  - rewrite render_threads_app, List.filter_app, IH. simpl.
    rewrite render_thread_is_entry. simpl. f_equal.
    apply imap_ext. intros i t' _. simpl. f_equal. lia.
  - rewrite render_threads_app, List.filter_app, IH. simpl.
    rewrite render_thread_is_entry. simpl. f_equal.
    apply imap_ext. intros i t' _. simpl. f_equal. lia.
Qed.

Lemma add_threads_entries lower threads filter_mode :
  List.filter is_thread_entry (add_threads lower threads filter_mode []) =
  imap (fun i t => _render_thread lower t (Z.of_nat i + 1)) threads.
Proof.
  unfold add_threads. destruct threads as [|t threads]; [done |].
  cbv zeta. rewrite render_threads_app, List.filter_app.
  by rewrite render_threads_entries.
Qed.







(** ** The renderer: review summaries *)


Lemma review_entry_lines r :
  let body := _clean_body (or_str (RawReview.body r) []) in
  let entry :=
    lit "- **@" ++
    default (lit "unknown") (user_login (RawReview.user r)) ++
    lit "** " ++ EM_DASH ++ lit " `" ++ default [] (RawReview.state r) ++
    lit "` (" ++ take 10 (or_str (RawReview.submitted_at r) []) ++ lit ")" in
  review_entry r =
  match body with
  | [] => [entry]
  | _ :: _ => [entry; preview_of body]
  end.
Proof.
  intros body entry. unfold review_entry, add_review. fold body.
  destruct body as [|c body]; [done |].
  cbn [app]. do 2 f_equal. unfold preview_of. do 2 f_equal.
  destruct (Z.gtb_spec (Z.of_nat (length (c :: body))) 200);
    destruct (decide (200 < length (c :: body))%nat); (done || lia).
Qed.



(** ** The filter mode *)

Lemma apply_filter_other filter_mode ts :
  filter_mode <> lit "unresolved" -> apply_filter filter_mode ts = ts.
Proof. intros Hmode. unfold apply_filter. by rewrite bool_decide_eq_false_2. Qed.

Lemma add_threads_other lower threads filter_mode :
  filter_mode <> lit "unresolved" ->
  add_threads lower threads filter_mode [] =
  add_threads lower threads (lit "all") [].
Proof.
  intros Hmode. unfold add_threads.
  by rewrite (bool_decide_eq_false_2 (filter_mode = _)) by done.
Qed.

Lemma document_lines_other lower pr_info ts issue_comments reviews filter_mode :
  filter_mode <> lit "unresolved" ->
  document_lines lower pr_info ts issue_comments reviews filter_mode =
  <[7%nat := lit "- **Filter:** " ++ filter_mode]>
    (document_lines lower pr_info ts issue_comments reviews (lit "all")).
Proof.
  intros Hmode. unfold document_lines.
  rewrite !apply_filter_other, (add_threads_other _ _ filter_mode) by done.
  reflexivity.
Qed.

(** C10.  For a filter mode other than "unresolved", and records with their
    required keys, [format_pr] returns a document; the threads shown are
    all the threads of the builder, as with mode "all"; and the document
    is the one of mode "all" but for its line 7, the Filter line of the
    header, which carries the mode as given.  The annotation of the count
    line is the one of mode "all". *)
Theorem filter_mode_only_label (lower : str -> str) (pr_info : PRInfo.t)
    (review_comments : list RawComment.t)
    (issue_comments : list RawIssueComment.t) (reviews : list RawReview.t)
    (filter_mode : str) :
  filter_mode <> lit "unresolved" ->
  forallb has_required_keys review_comments = true ->
  exists ts lines_all,
    _build_threads review_comments = Ok ts /\
    apply_filter filter_mode ts = ts /\
    apply_filter (lit "all") ts = ts /\
    add_threads lower (apply_filter filter_mode ts) filter_mode [] =
      add_threads lower ts (lit "all") [] /\
    format_pr_lines lower pr_info review_comments issue_comments reviews
      (lit "all") = Ok lines_all /\
    lines_all !! 7%nat = Some (lit "- **Filter:** all") /\
    format_pr_lines lower pr_info review_comments issue_comments reviews
      filter_mode =
      Ok (<[7%nat := lit "- **Filter:** " ++ filter_mode]> lines_all) /\
    format_pr lower pr_info review_comments issue_comments reviews
      filter_mode =
      Ok (join NL (<[7%nat := lit "- **Filter:** " ++ filter_mode]> lines_all)).
Proof.
  intros Hmode Hkeys.
  destruct (format_pr_ok lower pr_info review_comments issue_comments reviews
              filter_mode Hkeys) as (ts & Hts & Hlines & Hdoc).
  destruct (format_pr_ok lower pr_info review_comments issue_comments reviews
              (lit "all") Hkeys) as (ts' & Hts' & Hall & _).
  assert (ts' = ts) as -> by congruence.
  exists ts, (document_lines lower pr_info ts issue_comments reviews (lit "all")).
  rewrite <- document_lines_other by done.
  split_and!; try done.
  - by apply apply_filter_other.
  - rewrite apply_filter_other by done. by apply add_threads_other.
Qed.

Lemma filter_mode_only_label_witness :
  exists ts lines_all,
    _build_threads sample_comments = Ok ts /\
    apply_filter (lit "open") ts = ts /\
    apply_filter (lit "all") ts = ts /\
    add_threads ascii_lower (apply_filter (lit "open") ts) (lit "open") [] =
      add_threads ascii_lower ts (lit "all") [] /\
    format_pr_lines ascii_lower sample_pr sample_comments [] [sample_review]
      (lit "all") = Ok lines_all /\
    lines_all !! 7%nat = Some (lit "- **Filter:** all") /\
    format_pr_lines ascii_lower sample_pr sample_comments [] [sample_review]
      (lit "open") =
      Ok (<[7%nat := lit "- **Filter:** " ++ lit "open"]> lines_all) /\
    format_pr ascii_lower sample_pr sample_comments [] [sample_review]
      (lit "open") =
      Ok (join NL (<[7%nat := lit "- **Filter:** " ++ lit "open"]> lines_all)).
Proof.
  apply (filter_mode_only_label ascii_lower sample_pr sample_comments []
           [sample_review] (lit "open")).
  - vm_compute. discriminate.
  - reflexivity.
Defined.

(** ** Scenarios *)

(** The sample input: the two roots on a.py share the key (a.py, 0) and
    keep their input order, the root on b.py comes last with its reply, and
    the reply to the unknown identifier 99 is nowhere. *)
Example sample_threads :
  match _build_threads sample_comments with
  | Ok ts =>
      map (fun t => (ReviewComment.id (CommentThread.root t),
                     map ReviewComment.id (CommentThread.replies t))) ts
  | Raise _ => []
  end = [(2, []); (5, []); (1, [3])].
Proof. reflexivity. Qed.

(** With mode "unresolved" only the two threads without reply are left. *)
Example sample_threads_unresolved :
  match _build_threads sample_comments with
  | Ok ts =>
      map (fun t => ReviewComment.id (CommentThread.root t))
          (apply_filter (lit "unresolved") ts)
  | Raise _ => []
  end = [2; 5].
Proof. reflexivity. Qed.

(** Two roots carrying the same identifier share their replies: the
    uniqueness of identifiers is needed for reply lists to be disjoint. *)
Example shared_identifier_shares_replies :
  match _build_threads
          [ sample_comment 1 "a.py" (Some 1) None "first";
            sample_comment 1 "b.py" (Some 1) None "second";
            sample_comment 2 "a.py" (Some 1) (Some 1) "reply" ] with
  | Ok ts => map (fun t => map ReviewComment.id (CommentThread.replies t)) ts
  | Raise _ => []
  end = [[2]; [2]].
Proof. reflexivity. Qed.

(** A record without identifier makes the builder raise [KeyError]. *)
Example missing_id_raises :
  _build_threads
    [ {| RawComment.id := None;
         RawComment.user := sample_user "alice";
         RawComment.body := None;
         RawComment.path := None;
         RawComment.original_line := None;
         RawComment.line := None;
         RawComment.diff_hunk := None;
         RawComment.created_at := None;
         RawComment.html_url := None;
         RawComment.in_reply_to_id := None;
         RawComment.author_association := None |} ]
  = Raise (KeyError "id").
Proof. reflexivity. Qed.

(** [splitlines] counts CR LF as one break and yields no empty last line;
    [_clean_body] removes the white space which ends lines and the blank
    lines around the text. *)
Example splitlines_sample :
  splitlines (lit "a" ++ [13; 10]%N ++ NL ++ lit "b" ++ NL) =
  [lit "a"; []; lit "b"].
Proof. reflexivity. Qed.

Example clean_body_sample :
  _clean_body (NL ++ lit " first  " ++ NL ++ lit "second " ++ NL ++ NL) =
  lit "first" ++ NL ++ lit "second".
Proof. reflexivity. Qed.

(** A cleaned body of 250 characters is previewed by its first 200
    characters and the ellipsis. *)
Example preview_of_250_chars :
  review_entry
    {| RawReview.user := sample_user "bob";
       RawReview.state := Some (lit "DISMISSED");
       RawReview.submitted_at := None;
       RawReview.body := Some (replicate 250 120%N) |} =
  [ lit "- **@bob** " ++ EM_DASH ++ lit " `DISMISSED` ()";
    lit "  > " ++ replicate 200 120%N ++ ELLIPSIS ].
Proof. reflexivity. Qed.

(** The heading of a thread without line and without reply. *)
Example heading_without_line :
  thread_heading
    {| CommentThread.root :=
         {| ReviewComment.id := 2;
            ReviewComment.author := lit "alice";
            ReviewComment.body := [];
            ReviewComment.path := lit "a.py";
            ReviewComment.line := None;
            ReviewComment.diff_hunk := [];
            ReviewComment.created_at := [];
            ReviewComment.html_url := [];
            ReviewComment.in_reply_to_id := None;
            ReviewComment.is_suggestion := false;
            ReviewComment.author_association := [] |};
       CommentThread.replies := [] |} 12 =
  lit "### Thread 12 " ++ EM_DASH ++ lit " `a.py` (line None) [**OPEN**]".
Proof. reflexivity. Qed.

(** * Further properties *)

(** ** The thread builder: errors, coverage, colliding identifiers *)

Lemma first_missing_key_None raw :
  first_missing_key raw = None <-> has_required_keys raw = true.
Proof.
  unfold first_missing_key, has_required_keys.
  destruct (RawComment.id raw); [| done].
  by destruct (RawComment.user raw) as [[[?|]]|].
Qed.

Lemma make_comment_first_missing raw k :
  first_missing_key raw = Some k -> make_comment raw = Raise (KeyError k).
Proof.
  unfold first_missing_key, make_comment.
  destruct (RawComment.id raw); [| by intros [= <-]].
  destruct (RawComment.user raw) as [[[?|]]|]; simpl; try done;
    by intros [= <-].
Qed.

Lemma make_comments_app_raise good bad rest k :
  forallb has_required_keys good = true ->
  first_missing_key bad = Some k ->
  make_comments (good ++ bad :: rest) = Raise (KeyError k).
Proof.
  intros Hgood Hbad. induction good as [|raw good IH]; simpl.
  - by rewrite (make_comment_first_missing _ _ Hbad).
  - simpl in Hgood. apply andb_prop in Hgood as [Hraw Hgood].
    destruct (make_comment_ok _ Hraw) as [c ->]. simpl.
    by rewrite (IH Hgood).
Qed.

(** X1.  When the records which come first have an identifier and a user
    with a login, and the next record lacks one of these keys, [k] being
    the first it lacks in the order ["id"], ["user"], ["login"], then
    [_build_threads] raises [KeyError] for [k], and so does [format_pr],
    whatever records follow. *)
Theorem build_threads_first_error (lower : str -> str) (pr_info : PRInfo.t)
    (good : list RawComment.t) (bad : RawComment.t)
    (rest : list RawComment.t) (k : string)
    (issue_comments : list RawIssueComment.t) (reviews : list RawReview.t)
    (filter_mode : str) :
  forallb has_required_keys good = true ->
  first_missing_key bad = Some k ->
  _build_threads (good ++ bad :: rest) = Raise (KeyError k) /\
  format_pr lower pr_info (good ++ bad :: rest) issue_comments reviews
    filter_mode = Raise (KeyError k).
Proof.
  intros Hgood Hbad.
  assert (_build_threads (good ++ bad :: rest) = Raise (KeyError k)) as Hts.
  { rewrite build_threads_eq.
    by rewrite (make_comments_app_raise _ _ _ _ Hgood Hbad). }
  split; [done |].
  unfold format_pr. by rewrite format_pr_lines_blocks, Hts.
Qed.

Lemma build_threads_first_error_witness :
  _build_threads
    (sample_comments ++ sample_without_user :: [sample_without_id]) =
    Raise (KeyError "user") /\
  format_pr ascii_lower sample_pr
    (sample_comments ++ sample_without_user :: [sample_without_id])
    [] [sample_review] (lit "all") = Raise (KeyError "user").
Proof.
  apply (build_threads_first_error ascii_lower sample_pr sample_comments
           sample_without_user [sample_without_id] "user" [] [sample_review]
           (lit "all")).
  - reflexivity.
  - reflexivity.
Defined.

Lemma dangling_or_rooted cs c parent :
  ReviewComment.in_reply_to_id c = Some parent ->
  dangling cs c \/
  exists root, root ∈ cs /\ is_root root /\ ReviewComment.id root = parent.
Proof.
  intros Hc.
  destruct (decide (Exists (fun r => is_root r /\ ReviewComment.id r = parent)
                           cs)) as [Hex|Hno].
  - right. apply Exists_exists in Hex as (root & Hin & Hroot & Hid). eauto.
  - left. exists parent. split; [done |]. intros r Hin Hroot Hid.
    apply Hno, Exists_exists. eauto.
Qed.

(** X2.  No comment is lost but the dangling replies: every comment of the
    input is the root of a returned thread, or a reply in one, or a reply
    to an identifier that no root carries.  The threads hold nothing else,
    and there are as many threads as comments without parent. *)
Theorem build_threads_covers_input (raws : list RawComment.t) :
  forallb has_required_keys raws = true ->
  exists cs ts,
    make_comments raws = Ok cs /\ _build_threads raws = Ok ts /\
    (forall c, c ∈ cs ->
       (exists t, t ∈ ts /\ CommentThread.root t = c) \/
       (exists t, t ∈ ts /\ c ∈ CommentThread.replies t) \/
       dangling cs c) /\
    (forall t, t ∈ ts ->
       CommentThread.root t ∈ cs /\
       forall r, r ∈ CommentThread.replies t -> r ∈ cs) /\
    length ts = length (filter is_root cs).
Proof.
  intros Hkeys.
  destruct (build_threads_ok raws Hkeys) as (cs & Hcs & Hts).
  exists cs, (sort_by thread_key key_ltb (linked_threads cs)).
  split_and!; try done.
  - intros c Hc.
    destruct (ReviewComment.in_reply_to_id c) as [parent|] eqn:Hparent.
    + destruct (dangling_or_rooted cs c parent Hparent)
        as [?|(root & Hin & Hroot & Hid)]; [by auto |].
      right. left. eexists. split.
      * apply elem_of_sorted_threads. exists root. eauto.
      * simpl. apply list_elem_of_filter. split; [| done].
        unfold replies_to. by rewrite Hid.
    + left. eexists. split.
      * apply elem_of_sorted_threads. exists c. eauto.
      * done.
  - intros t (root & Hin & Hroot & ->)%elem_of_sorted_threads. simpl.
    split; [done |]. by intros r [_ ?]%list_elem_of_filter.
  - rewrite (sort_by_perm thread_key key_ltb). unfold linked_threads.
    apply length_map.
Qed.

Lemma build_threads_covers_input_witness :
  exists cs ts,
    make_comments sample_comments = Ok cs /\
    _build_threads sample_comments = Ok ts /\
    (forall c, c ∈ cs ->
       (exists t, t ∈ ts /\ CommentThread.root t = c) \/
       (exists t, t ∈ ts /\ c ∈ CommentThread.replies t) \/
       dangling cs c) /\
    (forall t, t ∈ ts ->
       CommentThread.root t ∈ cs /\
       forall r, r ∈ CommentThread.replies t -> r ∈ cs) /\
    length ts = length (filter is_root cs).
Proof.
  apply (build_threads_covers_input sample_comments). reflexivity.
Defined.

Lemma NoDup_fmap_eq {A B} (f : A -> B) (l : list A) x y :
  NoDup (map f l) -> x ∈ l -> y ∈ l -> f x = f y -> x = y.
Proof.
  intros Hnd [i Hi]%list_elem_of_lookup [j Hj]%list_elem_of_lookup Hf.
  assert (i = j) as ->; [| congruence].
  eapply NoDup_lookup; [exact Hnd | |].
  - by rewrite list_lookup_fmap, Hi.
  - rewrite list_lookup_fmap, Hj. simpl. by rewrite Hf.
Qed.

(** X3.  Threads are two levels deep: when identifiers are unique, a reply
    to a comment which is itself a reply is in no thread's reply list. *)
Theorem build_threads_drops_nested_replies (raws : list RawComment.t) :
  forallb has_required_keys raws = true ->
  NoDup (map RawComment.id raws) ->
  exists cs ts,
    make_comments raws = Ok cs /\ _build_threads raws = Ok ts /\
    forall c r, c ∈ cs -> r ∈ cs ->
      ReviewComment.in_reply_to_id c = Some (ReviewComment.id r) ->
      ReviewComment.in_reply_to_id r <> None ->
      forall t, t ∈ ts -> c ∉ CommentThread.replies t.
Proof.
  intros Hkeys Hnd.
  destruct (build_threads_ok raws Hkeys) as (cs & Hcs & Hts).
  exists cs, (sort_by thread_key key_ltb (linked_threads cs)).
  split_and!; try done.
  intros c r _ Hr Hc Hreply t
    (root & Hin & Hroot & ->)%elem_of_sorted_threads.
  simpl. intros [Hc' _]%list_elem_of_filter. unfold replies_to in Hc'.
  assert (root = r) as ->; [| done].
  eapply (NoDup_fmap_eq ReviewComment.id cs); eauto.
  - by eapply make_comments_NoDup.
  - congruence.
Qed.

Lemma build_threads_drops_nested_replies_witness :
  exists cs ts,
    make_comments sample_nested = Ok cs /\
    _build_threads sample_nested = Ok ts /\
    forall c r, c ∈ cs -> r ∈ cs ->
      ReviewComment.in_reply_to_id c = Some (ReviewComment.id r) ->
      ReviewComment.in_reply_to_id r <> None ->
      forall t, t ∈ ts -> c ∉ CommentThread.replies t.
Proof.
  apply (build_threads_drops_nested_replies sample_nested).
  - reflexivity.
  - refine (bool_decide_unpack _ _). vm_compute. exact I.
Defined.

(** In the sample the reply 3 to the reply 2 is dropped: the only thread is
    the root 1 with the reply 2. *)
Example sample_nested_threads :
  match _build_threads sample_nested with
  | Ok ts =>
      map (fun t => (ReviewComment.id (CommentThread.root t),
                     map ReviewComment.id (CommentThread.replies t))) ts
  | Raise _ => []
  end = [(1, [2])].
Proof. reflexivity. Qed.

Lemma length_filter_linked_threads all (P : ReviewComment.t -> Prop)
    `{!forall c, Decision (P c)} l :
  length
    (filter (fun t => P (CommentThread.root t))
       (map (fun root =>
               {| CommentThread.root := root;
                  CommentThread.replies :=
                    filter (replies_to (ReviewComment.id root)) all |})
            (filter is_root l))) =
  length (filter (fun c => ReviewComment.in_reply_to_id c = None /\ P c) l).
Proof.
  induction l as [|c l IH]; [done |].
  rewrite (filter_cons is_root).
  rewrite (filter_cons (fun c => ReviewComment.in_reply_to_id c = None /\ _)).
  destruct (decide (is_root c)) as [Hroot|Hroot]; unfold is_root in Hroot.
  - cbn [map]. rewrite filter_cons. cbn [CommentThread.root].
    destruct (decide (P c)) as [Hc|Hc].
    + rewrite decide_True by done. simpl. by rewrite IH.
    + rewrite decide_False by tauto. done.
  - rewrite decide_False by tauto. done.
Qed.

(** X4.  Whether or not identifiers are unique, a reply to the identifier
    [p] is listed in exactly the threads whose root carries [p], and there
    are as many of these as parentless comments which carry [p]: under no
    thread when there is none, under each of them when several roots share
    the identifier. *)
Theorem reply_listed_under_each_root (raws : list RawComment.t) :
  forallb has_required_keys raws = true ->
  exists cs ts,
    make_comments raws = Ok cs /\ _build_threads raws = Ok ts /\
    forall c p, c ∈ cs -> ReviewComment.in_reply_to_id c = Some p ->
      (forall t, t ∈ ts ->
         (c ∈ CommentThread.replies t <->
          ReviewComment.id (CommentThread.root t) = p)) /\
      length (filter (fun t => ReviewComment.id (CommentThread.root t) = p)
                ts) =
      length (filter (fun r => ReviewComment.in_reply_to_id r = None /\
                               ReviewComment.id r = p) cs).
Proof.
  intros Hkeys.
  destruct (build_threads_ok raws Hkeys) as (cs & Hcs & Hts).
  exists cs, (sort_by thread_key key_ltb (linked_threads cs)).
  do 2 (split; [done |]). intros c p Hc Hp. split.
  - intros t (root & _ & _ & ->)%elem_of_sorted_threads. simpl.
    rewrite list_elem_of_filter. unfold replies_to. rewrite Hp. split.
    + by intros [[= ->] _].
    + by intros ->.
  - rewrite (sort_by_perm thread_key key_ltb). unfold linked_threads.
    pose proof (length_filter_linked_threads cs
                  (fun r => ReviewComment.id r = p) cs) as Hlen.
    etransitivity; [etransitivity; [| exact Hlen] |]; [done |].
    by f_equal.
Qed.

Lemma reply_listed_under_each_root_witness :
  exists cs ts,
    make_comments sample_shared = Ok cs /\
    _build_threads sample_shared = Ok ts /\
    forall c p, c ∈ cs -> ReviewComment.in_reply_to_id c = Some p ->
      (forall t, t ∈ ts ->
         (c ∈ CommentThread.replies t <->
          ReviewComment.id (CommentThread.root t) = p)) /\
      length (filter (fun t => ReviewComment.id (CommentThread.root t) = p)
                ts) =
      length (filter (fun r => ReviewComment.in_reply_to_id r = None /\
                               ReviewComment.id r = p) cs).
Proof.
  apply (reply_listed_under_each_root sample_shared). reflexivity.
Defined.

(** ** The document: file groups, counts, errors *)

Lemma apply_filter_List_filter filter_mode ts :
  exists f, apply_filter filter_mode ts = List.filter f ts.
Proof.
  unfold apply_filter. case_bool_decide; [eauto |].
  exists (fun _ => true). induction ts; simpl; congruence.
Qed.

Lemma StronglySorted_List_filter {A} (R : relation A) f l :
  StronglySorted R l -> StronglySorted R (List.filter f l).
Proof.
  induction 1 as [|x l Hl IH Hx]; simpl; [constructor |].
  destruct (f x); [| done]. constructor; [done |].
  rewrite Forall_forall in Hx. apply Forall_forall.
  intros y Hy%list_elem_of_In%filter_In. apply Hx, list_elem_of_In, Hy.
Qed.

Lemma build_threads_ok_sorted raws filter_mode :
  forallb has_required_keys raws = true ->
  exists ts,
    _build_threads raws = Ok ts /\
    StronglySorted thread_le (apply_filter filter_mode ts).
Proof.
  intros (cs & _ & Hts)%build_threads_ok. eexists. split; [exact Hts |].
  destruct (apply_filter_List_filter filter_mode
              (sort_by thread_key key_ltb (linked_threads cs))) as [f ->].
  apply StronglySorted_List_filter.
  apply (sort_by_sorted thread_key key_ltb key_le);
    eauto using key_ltb_le, key_nltb_le, key_le_trans.
Qed.

Lemma render_thread_not_group lower t index :
  is_group_heading (_render_thread lower t index) = false.
Proof.
  destruct (render_thread_heading lower t index) as [rest ->].
  reflexivity.
Qed.

Lemma is_group_heading_line file :
  is_group_heading (group_heading_line file) = true.
Proof. apply startswith_app. Qed.

Lemma group_heading_line_inj : Inj (=) (=) group_heading_line.
Proof.
  intros p q Heq. unfold group_heading_line in Heq.
  apply app_inv_head in Heq. by apply app_inv_tail in Heq.
Qed.

Lemma render_threads_groups lower threads current_file thread_index :
  List.filter is_group_heading
    (render_threads lower threads current_file thread_index []) =
  map group_heading_line (group_paths current_file threads).
Proof.
  revert current_file thread_index.
  induction threads as [|t threads IH]; intros cur idx; [done |].
  cbn [render_threads group_paths]. case_bool_decide as Hcur.
  - rewrite decide_False by congruence.
    rewrite render_threads_app, List.filter_app, IH. cbn [app List.filter].
    rewrite render_thread_not_group.
    change (is_group_heading (lit "---")) with false.
    change (is_group_heading []) with false.
    change (lit "## File: `" ++
            ReviewComment.path (CommentThread.root t) ++ lit "`")
      with (group_heading_line (ReviewComment.path (CommentThread.root t))).
    by rewrite is_group_heading_line.
  - rewrite decide_True by done.
    rewrite render_threads_app, List.filter_app, IH. cbn [app List.filter].
    rewrite render_thread_not_group. by rewrite <- Hcur.
Qed.

Lemma add_threads_groups lower threads filter_mode :
  List.filter is_group_heading (add_threads lower threads filter_mode []) =
  map group_heading_line (group_paths None threads).
Proof.
  unfold add_threads. destruct threads as [|t threads]; [done |].
  cbv zeta. rewrite render_threads_app, List.filter_app.
  by rewrite render_threads_groups.
Qed.

Lemma thread_le_path t1 t2 :
  thread_le t1 t2 ->
  lex_lt (ReviewComment.path (CommentThread.root t1))
         (ReviewComment.path (CommentThread.root t2)) \/
  ReviewComment.path (CommentThread.root t1) =
  ReviewComment.path (CommentThread.root t2).
Proof. unfold thread_le, key_le, thread_key. simpl. tauto. Qed.

Lemma group_paths_above p threads :
  Forall (fun t => lex_lt p (ReviewComment.path (CommentThread.root t)) \/
                   p = ReviewComment.path (CommentThread.root t)) threads ->
  StronglySorted thread_le threads ->
  forall q, q ∈ group_paths (Some p) threads -> lex_lt p q.
Proof.
  intros Hp Hsorted. revert p Hp.
  induction Hsorted as [|t threads Hsorted IH Ht]; intros p Hp q; simpl.
  - by intros ?%elem_of_nil.
  - apply Forall_cons in Hp as [Hpt Hp].
    assert (forall q', q' ∈ group_paths
                         (Some (ReviewComment.path (CommentThread.root t)))
                         threads ->
                       lex_lt (ReviewComment.path (CommentThread.root t)) q')
      as Hrest.
    { apply IH. eapply Forall_impl; [exact Ht |].
      intros t'. apply thread_le_path. }
    destruct (decide (Some p =
                      Some (ReviewComment.path (CommentThread.root t))))
      as [Heq|Hne]; simpl.
    + injection Heq as ->. apply Hrest.
    + destruct Hpt as [Hlt | ->]; [| done].
      intros [->|Hq]%elem_of_cons; [done |].
      eapply lex_lt_trans; [exact Hlt | by apply Hrest].
Qed.

Lemma group_paths_NoDup prev threads :
  StronglySorted thread_le threads -> NoDup (group_paths prev threads).
Proof.
  intros Hsorted. revert prev.
  induction Hsorted as [|t threads Hsorted IH Ht]; intros prev; simpl.
  - constructor.
  - destruct (decide (prev =
                      Some (ReviewComment.path (CommentThread.root t))));
      simpl; [apply IH |].
    constructor; [| apply IH].
    intros Hin. eapply lex_lt_irrefl, group_paths_above; [| done | exact Hin].
    eapply Forall_impl; [exact Ht |]. intros t'. apply thread_le_path.
Qed.

Lemma group_paths_elem_of q threads :
  q ∈ group_paths None threads <->
  exists t, t ∈ threads /\ ReviewComment.path (CommentThread.root t) = q.
Proof.
  assert (forall prev,
            (q ∈ group_paths prev threads ->
             exists t, t ∈ threads /\
                       ReviewComment.path (CommentThread.root t) = q) /\
            ((exists t, t ∈ threads /\
                        ReviewComment.path (CommentThread.root t) = q) ->
             q ∈ group_paths prev threads \/ prev = Some q)) as Hgen.
  { induction threads as [|t threads IH]; intros prev; simpl.
    - split; [by intros ?%elem_of_nil |].
      by intros (t & ?%elem_of_nil & _).
    - specialize (IH (Some (ReviewComment.path (CommentThread.root t)))).
      destruct IH as [IH1 IH2]. split.
      + intros [Hq|Hq]%elem_of_app.
        * destruct (decide _); [by apply elem_of_nil in Hq |].
          apply list_elem_of_singleton in Hq as ->.
          exists t. split; [left | done].
        * destruct (IH1 Hq) as (t' & Hin & Hpath).
          exists t'. split; [by right | done].
      + intros (t' & Hin & Hpath).
        assert (q ∈ group_paths
                      (Some (ReviewComment.path (CommentThread.root t)))
                      threads \/
                ReviewComment.path (CommentThread.root t) = q)
          as [Hrest|Hhead].
        { apply elem_of_cons in Hin as [->|Hin]; [by right |].
          destruct IH2 as [?|Heq]; [by eauto | by left |].
          injection Heq as ?. by right. }
        * left. apply elem_of_app. by right.
        * destruct (decide (prev =
                      Some (ReviewComment.path (CommentThread.root t))))
            as [->|Hne].
          -- right. by rewrite Hhead.
          -- left. apply elem_of_app. left. rewrite Hhead. left. }
  destruct (Hgen None) as [H1 H2]. split; [done |].
  intros Hex. by destruct (H2 Hex).
Qed.

(** X5.  The threads which [format_pr] renders are in ascending key order
    also after the filter, so each file has one group: the file-group
    headings of the inline block are pairwise distinct, and they are the
    headings of the root paths of the threads shown. *)
Theorem file_groups_unique (lower : str -> str)
    (review_comments : list RawComment.t) (filter_mode : str) :
  forallb has_required_keys review_comments = true ->
  exists ts,
    _build_threads review_comments = Ok ts /\
    let threads := apply_filter filter_mode ts in
    let headings :=
      List.filter is_group_heading
        (add_threads lower threads filter_mode []) in
    StronglySorted thread_le threads /\
    NoDup headings /\
    forall h, h ∈ headings <->
      exists t, t ∈ threads /\
        h = lit "## File: `" ++
            ReviewComment.path (CommentThread.root t) ++ lit "`".
Proof.
  intros Hkeys.
  destruct (build_threads_ok_sorted review_comments filter_mode Hkeys)
    as (ts & Hts & Hsorted).
  exists ts. split; [done |]. intros threads headings.
  subst headings. rewrite add_threads_groups. split_and!.
  - done.
  - apply (@NoDup_fmap_2 _ _ group_heading_line group_heading_line_inj).
    by apply group_paths_NoDup.
  - intros h. rewrite list_elem_of_fmap.
    setoid_rewrite group_paths_elem_of. split.
    + intros (q & -> & t & Hin & <-). eauto.
    + intros (t & Hin & ->). eexists. split; [reflexivity |]. eauto.
Qed.

Lemma file_groups_unique_witness :
  exists ts,
    _build_threads sample_comments = Ok ts /\
    let threads := apply_filter (lit "all") ts in
    let headings :=
      List.filter is_group_heading
        (add_threads ascii_lower threads (lit "all") []) in
    StronglySorted thread_le threads /\
    NoDup headings /\
    forall h, h ∈ headings <->
      exists t, t ∈ threads /\
        h = lit "## File: `" ++
            ReviewComment.path (CommentThread.root t) ++ lit "`".
Proof.
  apply (file_groups_unique ascii_lower sample_comments (lit "all")).
  reflexivity.
Defined.

Lemma linked_threads_unanswered all l :
  length
    (filter (fun t => length (CommentThread.replies t) = 0%nat)
       (map (fun root =>
               {| CommentThread.root := root;
                  CommentThread.replies :=
                    filter (replies_to (ReviewComment.id root)) all |})
            (filter is_root l))) =
  length (filter (unanswered_root all) l).
Proof.
  induction l as [|c l IH]; [done |].
  rewrite (filter_cons is_root), (filter_cons (unanswered_root all)).
  destruct (decide (unanswered_root all c)) as [[Hroot Hlen]|Hno].
  - rewrite decide_True by done. cbn [map]. rewrite filter_cons_True by done.
    simpl. by rewrite IH.
  - destruct (decide (is_root c)) as [Hroot|Hroot]; [| done].
    cbn [map]. rewrite filter_cons_False; [done |].
    cbn [CommentThread.replies]. intros Hlen. by apply Hno.
Qed.

(** X6.  The number of thread entries in the inline block is the number of
    threads shown, which the count line prints.  With a mode other than
    "unresolved" it is the number of comments without parent; with mode
    "unresolved" it is the number of those to whose identifier no comment
    replies. *)
Theorem thread_entries_count (lower : str -> str)
    (review_comments : list RawComment.t) (filter_mode : str) :
  forallb has_required_keys review_comments = true ->
  exists cs ts,
    make_comments review_comments = Ok cs /\
    _build_threads review_comments = Ok ts /\
    let threads := apply_filter filter_mode ts in
    length (List.filter is_thread_entry
              (add_threads lower threads filter_mode [])) =
      length threads /\
    (filter_mode <> lit "unresolved" ->
       length threads = length (filter is_root cs)) /\
    (filter_mode = lit "unresolved" ->
       length threads = length (filter (unanswered_root cs) cs)).
Proof.
  intros Hkeys.
  destruct (build_threads_ok review_comments Hkeys) as (cs & Hcs & Hts).
  exists cs, (sort_by thread_key key_ltb (linked_threads cs)).
  do 2 (split; [done |]). intros threads. split_and!.
  - rewrite add_threads_entries. apply length_imap.
  - intros Hmode. subst threads. rewrite apply_filter_other by done.
    rewrite (sort_by_perm thread_key key_ltb). unfold linked_threads.
    apply length_map.
  - intros ->. subst threads. unfold apply_filter.
    rewrite bool_decide_eq_true_2 by done. rewrite filter_unresolved.
    rewrite (sort_by_perm thread_key key_ltb).
    apply linked_threads_unanswered.
Qed.

Lemma thread_entries_count_witness :
  exists cs ts,
    make_comments sample_comments = Ok cs /\
    _build_threads sample_comments = Ok ts /\
    let threads := apply_filter (lit "unresolved") ts in
    length (List.filter is_thread_entry
              (add_threads ascii_lower threads (lit "unresolved") [])) =
      length threads /\
    (lit "unresolved" <> lit "unresolved" ->
       length threads = length (filter is_root cs)) /\
    (lit "unresolved" = lit "unresolved" ->
       length threads = length (filter (unanswered_root cs) cs)).
Proof.
  apply (thread_entries_count ascii_lower sample_comments (lit "unresolved")).
  reflexivity.
Defined.

Lemma render_thread_without_replies lower t index :
  CommentThread.replies t = [] ->
  _render_thread lower t index =
  join NL
    [ lit "### Thread " ++ str_of_int index ++ lit " " ++ EM_DASH ++
      lit " `" ++ ReviewComment.path (CommentThread.root t) ++
      lit "` (line " ++
      str_of_optional_int (ReviewComment.line (CommentThread.root t)) ++
      lit ") [**OPEN**]";
      [];
      lit "**Diff context:**";
      lit "```diff";
      _extract_diff_hunk_tail
        (ReviewComment.diff_hunk (CommentThread.root t)) 6;
      lit "```";
      [];
      _render_comment_body lower (CommentThread.root t) [];
      [] ].
Proof.
  intros Hreplies.
  unfold _render_thread, thread_heading, CommentThread.is_resolved.
  by rewrite Hreplies.
Qed.

(** X7.  With mode "unresolved" every thread shown is open: it has no
    reply, its heading carries the tag OPEN, and its rendering stops after
    the root comment, without a Replies part. *)
Theorem unresolved_shows_open_threads (lower : str -> str)
    (ts : list CommentThread.t) (i : nat) (t : CommentThread.t) (index : Z) :
  apply_filter (lit "unresolved") ts !! i = Some t ->
  t ∈ ts /\
  CommentThread.replies t = [] /\
  _render_thread lower t index =
  join NL
    [ lit "### Thread " ++ str_of_int index ++ lit " " ++ EM_DASH ++
      lit " `" ++ ReviewComment.path (CommentThread.root t) ++
      lit "` (line " ++
      str_of_optional_int (ReviewComment.line (CommentThread.root t)) ++
      lit ") [**OPEN**]";
      [];
      lit "**Diff context:**";
      lit "```diff";
      _extract_diff_hunk_tail
        (ReviewComment.diff_hunk (CommentThread.root t)) 6;
      lit "```";
      [];
      _render_comment_body lower (CommentThread.root t) [];
      [] ].
Proof.
  intros Hin%list_elem_of_lookup_2. unfold apply_filter in Hin.
  rewrite bool_decide_eq_true_2, filter_unresolved in Hin by done.
  apply list_elem_of_filter in Hin as [Hlen%length_zero_iff_nil Hin].
  split_and!; [done | done |]. by apply render_thread_without_replies.
Qed.

Lemma unresolved_shows_open_threads_witness :
  sample_open_thread ∈ [sample_open_thread] /\
  CommentThread.replies sample_open_thread = [] /\
  _render_thread ascii_lower sample_open_thread 1 =
  join NL
    [ lit "### Thread " ++ str_of_int 1 ++ lit " " ++ EM_DASH ++
      lit " `" ++
      ReviewComment.path (CommentThread.root sample_open_thread) ++
      lit "` (line " ++
      str_of_optional_int
        (ReviewComment.line (CommentThread.root sample_open_thread)) ++
      lit ") [**OPEN**]";
      [];
      lit "**Diff context:**";
      lit "```diff";
      _extract_diff_hunk_tail
        (ReviewComment.diff_hunk (CommentThread.root sample_open_thread)) 6;
      lit "```";
      [];
      _render_comment_body ascii_lower
        (CommentThread.root sample_open_thread) [];
      [] ].
Proof.
  apply (unresolved_shows_open_threads ascii_lower [sample_open_thread] 0
           sample_open_thread 1).
  reflexivity.
Defined.

(** X9.  Without inline comments, reviews and general comments the
    document is the header followed by the title of the inline block and
    the notice that no comment was found, whatever the mode. *)
Theorem format_pr_of_nothing (lower : str -> str) (pr_info : PRInfo.t)
    (filter_mode : str) :
  format_pr lower pr_info [] [] [] filter_mode =
  Ok (join NL
        [ lit "# PR #" ++ str_of_int (PRInfo.number pr_info) ++ lit ": " ++
          PRInfo.title pr_info;
          [];
          lit "- **Repository:** " ++ PRInfo.owner pr_info ++ lit "/" ++
          PRInfo.repo pr_info;
          lit "- **Author:** @" ++ PRInfo.author pr_info;
          lit "- **State:** " ++ PRInfo.state pr_info;
          lit "- **Branch:** `" ++ PRInfo.head_branch pr_info ++ lit "` " ++
          RIGHT_ARROW ++ lit " `" ++ PRInfo.base_branch pr_info ++ lit "`";
          lit "- **URL:** " ++ PRInfo.url pr_info;
          lit "- **Filter:** " ++ filter_mode;
          [];
          lit "## Inline Review Comments";
          [];
          lit "_No inline review comments found for the selected filter._";
          [] ]).
Proof.
  unfold format_pr, format_pr_lines, apply_filter.
  cbn [_build_threads build_loop bind build_init roots map sort_by].
  by case_bool_decide.
Qed.

(** ** Lines and white space *)

(** The recursion of [splitlines_from], as an induction principle. *)
Lemma splitlines_from_ind (P : str -> str -> list str -> Prop) :
  (forall cur, P cur [] (match cur with [] => [] | _ :: _ => [cur] end)) ->
  (forall cur c s, is_linebreak c = false ->
     P (cur ++ [c]) s (splitlines_from (cur ++ [c]) s) ->
     P cur (c :: s) (splitlines_from (cur ++ [c]) s)) ->
  (forall cur c s, is_linebreak c = true ->
     c <> 13%N \/ head s <> Some 10%N ->
     P [] s (splitlines_from [] s) ->
     P cur (c :: s) (cur :: splitlines_from [] s)) ->
  (forall cur s,
     P [] s (splitlines_from [] s) ->
     P cur (13%N :: 10%N :: s) (cur :: splitlines_from [] s)) ->
  forall cur s, P cur s (splitlines_from cur s).
Proof.
  intros Hnil Hchar Hbreak Hcrlf cur s.
  assert (forall n s, (length s <= n)%nat ->
                      forall cur, P cur s (splitlines_from cur s)) as Hall;
    [| by apply (Hall (length s))].
  clear cur s. induction n as [|n IH]; intros s Hlen cur.
  { destruct s; [apply Hnil | simpl in Hlen; lia]. }
  destruct s as [|c s]; [apply Hnil |]. simpl in Hlen.
  cbn [splitlines_from]. destruct (is_linebreak c) eqn:Hc.
  - destruct s as [|c' s].
    + apply (Hbreak cur c []); [done | by right | apply Hnil].
    + destruct ((c =? 13)%N && (c' =? 10)%N) eqn:Hcr.
      * apply andb_prop in Hcr as [->%N.eqb_eq ->%N.eqb_eq].
        apply Hcrlf, IH. simpl in Hlen. lia.
      * apply (Hbreak cur c (c' :: s)); [done | | apply IH; lia].
        apply andb_false_iff in Hcr as [?%N.eqb_neq|?%N.eqb_neq];
          [by left | right; simpl; congruence].
  - apply Hchar; [done |]. apply IH. lia.
Qed.

Lemma is_linebreak_space c : is_linebreak c = true -> is_space c = true.
Proof.
  unfold is_linebreak, is_space.
  rewrite !orb_true_iff, !andb_true_iff, !N.leb_le, !N.eqb_eq. lia.
Qed.

Lemma is_space_NL : is_space 10%N = true.
Proof. reflexivity. Qed.

(** The lines hold no line break. *)
Lemma splitlines_from_no_linebreak cur s :
  Forall (fun c => is_linebreak c = false) cur ->
  Forall (Forall (fun c => is_linebreak c = false)) (splitlines_from cur s).
Proof.
  apply (splitlines_from_ind
           (fun cur s ls =>
              Forall (fun c => is_linebreak c = false) cur ->
              Forall (Forall (fun c => is_linebreak c = false)) ls));
    clear cur s.
  - intros [|c cur] Hcur; simpl; [constructor |].
    constructor; [done | constructor].
  - intros cur c s Hc IH Hcur. apply IH, Forall_app.
    split; [done | by constructor].
  - intros cur c s _ _ IH Hcur. constructor; [done | by apply IH].
  - intros cur s IH Hcur. constructor; [done | by apply IH].
Qed.

(** Put end to end, the lines are the string without its line breaks. *)
Lemma concat_splitlines_from cur s :
  concat (splitlines_from cur s) =
  cur ++ List.filter (fun c => negb (is_linebreak c)) s.
Proof.
  apply (splitlines_from_ind
           (fun cur s ls =>
              concat ls =
              cur ++ List.filter (fun c => negb (is_linebreak c)) s));
    clear cur s.
  - intros [|c cur]; simpl; by rewrite ?app_nil_r.
  - intros cur c s Hc IH. simpl. rewrite Hc, IH. simpl.
    by rewrite <- app_assoc.
  - intros cur c s Hc _ IH. simpl. by rewrite Hc, IH.
  - intros cur s IH. simpl. by rewrite IH.
Qed.

Lemma join_cons_cons sep p q ps :
  join sep (p :: q :: ps) = p ++ sep ++ join sep (q :: ps).
Proof. done. Qed.

Lemma length_join_cons sep p ps :
  (length (join sep (p :: ps)) <=
   length p + length sep + length (join sep ps))%nat.
Proof.
  destruct ps as [|q ps]; [simpl; lia |].
  rewrite join_cons_cons, !length_app. lia.
Qed.

(** Joining the lines again does not give a longer string. *)
Lemma length_join_splitlines_from cur s :
  (length (join NL (splitlines_from cur s)) <= length cur + length s)%nat.
Proof.
  apply (splitlines_from_ind
           (fun cur s ls =>
              (length (join NL ls) <= length cur + length s)%nat));
    clear cur s.
  - intros [|c cur]; simpl; lia.
  - intros cur c s _ IH. rewrite length_app in IH. simpl in *. lia.
  - intros cur c s _ _ IH.
    pose proof (length_join_cons NL cur (splitlines_from [] s)).
    simpl in *. lia.
  - intros cur s IH.
    pose proof (length_join_cons NL cur (splitlines_from [] s)).
    simpl in *. lia.
Qed.

(** [lstrip] removes a prefix of white space, [rstrip] a suffix. *)
Lemma lstrip_spec s :
  exists spaces,
    s = spaces ++ lstrip s /\ Forall (fun c => is_space c = true) spaces /\
    forall c, head (lstrip s) = Some c -> is_space c = false.
Proof.
  induction s as [|c s (spaces & Hs & Hspaces & Hhead)]; simpl.
  - by exists [].
  - destruct (is_space c) eqn:Hc.
    + exists (c :: spaces).
      split_and!; [simpl; congruence | by constructor | done].
    + exists []. split_and!; [done | done |]. simpl. congruence.
Qed.

Lemma last_rev {A} (l : list A) : last (rev l) = head l.
Proof. destruct l as [|x l]; [done |]. simpl. apply last_snoc. Qed.

Lemma rstrip_spec s :
  exists spaces,
    s = rstrip s ++ spaces /\ Forall (fun c => is_space c = true) spaces /\
    forall c, last (rstrip s) = Some c -> is_space c = false.
Proof.
  unfold rstrip.
  destruct (lstrip_spec (rev s)) as (spaces & Hs & Hspaces & Hhead).
  exists (rev spaces). split_and!.
  - rewrite <- rev_app_distr, <- Hs. by rewrite rev_involutive.
  - by apply Forall_rev.
  - intros c. rewrite last_rev. apply Hhead.
Qed.

Lemma lstrip_head_not_space c s : is_space c = false -> lstrip (c :: s) = c :: s.
Proof. intros Hc. simpl. by rewrite Hc. Qed.

Lemma lstrip_snoc s c :
  is_space c = false -> lstrip (s ++ [c]) = lstrip s ++ [c].
Proof.
  intros Hc. induction s as [|d s IH]; simpl; [by rewrite Hc |].
  destruct (is_space d); [done | done].
Qed.

Lemma rstrip_cons c s : is_space c = false -> rstrip (c :: s) = c :: rstrip s.
Proof.
  intros Hc. unfold rstrip. simpl. rewrite lstrip_snoc by done.
  by rewrite rev_app_distr.
Qed.

Lemma rstrip_last_not_space s c :
  last s = Some c -> is_space c = false -> rstrip s = s.
Proof.
  intros [s' ->]%last_Some Hc. unfold rstrip.
  rewrite rev_app_distr. simpl. rewrite Hc. simpl.
  by rewrite rev_involutive.
Qed.

Lemma filter_not_space_spaces spaces :
  Forall (fun c => is_space c = true) spaces ->
  List.filter (fun c => negb (is_space c)) spaces = [].
Proof.
  induction 1 as [|c spaces Hc _ IH]; simpl; [done |]. by rewrite Hc.
Qed.

Lemma filter_not_space_nil s :
  List.filter (fun c => negb (is_space c)) s = [] ->
  Forall (fun c => is_space c = true) s.
Proof.
  induction s as [|c s IH]; simpl; [constructor |].
  destruct (is_space c) eqn:Hc; simpl; [| done].
  intros Hs. constructor; auto.
Qed.

Lemma strip_infix s :
  exists before after,
    s = before ++ strip s ++ after /\
    Forall (fun c => is_space c = true) before /\
    Forall (fun c => is_space c = true) after.
Proof.
  destruct (lstrip_spec s) as (before & Hs & Hbefore & _).
  destruct (rstrip_spec (lstrip s)) as (after & Hl & Hafter & _).
  exists before, after. unfold strip. by rewrite <- Hl.
Qed.

Lemma strip_head s c : head (strip s) = Some c -> is_space c = false.
Proof.
  destruct (lstrip_spec s) as (_ & _ & _ & Hhead). unfold strip.
  destruct (lstrip s) as [|d r]; [done |].
  specialize (Hhead d eq_refl). rewrite rstrip_cons by done.
  simpl. congruence.
Qed.

Lemma strip_last s c : last (strip s) = Some c -> is_space c = false.
Proof.
  destruct (rstrip_spec (lstrip s)) as (_ & _ & _ & Hlast). apply Hlast.
Qed.

Lemma strip_idle s :
  (forall c, head s = Some c -> is_space c = false) ->
  (forall c, last s = Some c -> is_space c = false) ->
  strip s = s.
Proof.
  intros Hhead Hlast. unfold strip.
  destruct s as [|c s]; [done |].
  rewrite lstrip_head_not_space by auto.
  destruct (last (c :: s)) as [d|] eqn:Hd.
  - eapply rstrip_last_not_space; eauto.
  - by apply last_None in Hd.
Qed.

Lemma filter_not_space_strip s :
  List.filter (fun c => negb (is_space c)) (strip s) =
  List.filter (fun c => negb (is_space c)) s.
Proof.
  destruct (strip_infix s) as (before & after & Hs & Hbefore & Hafter).
  rewrite Hs at 2. rewrite !List.filter_app.
  rewrite (filter_not_space_spaces before), (filter_not_space_spaces after)
    by done.
  by rewrite app_nil_r.
Qed.

Lemma filter_not_space_rstrip s :
  List.filter (fun c => negb (is_space c)) (rstrip s) =
  List.filter (fun c => negb (is_space c)) s.
Proof.
  destruct (rstrip_spec s) as (after & Hs & Hafter & _).
  rewrite Hs at 2. rewrite List.filter_app.
  rewrite (filter_not_space_spaces after) by done. by rewrite app_nil_r.
Qed.

Lemma filter_not_space_join ls :
  List.filter (fun c => negb (is_space c)) (join NL ls) =
  List.filter (fun c => negb (is_space c)) (concat ls).
Proof.
  induction ls as [|p ps IH]; [done |]. destruct ps as [|q ps].
  - simpl. by rewrite app_nil_r.
  - rewrite join_cons_cons, (concat_cons p), !List.filter_app, IH. done.
Qed.

Lemma filter_not_space_concat_rstrip ls :
  List.filter (fun c => negb (is_space c)) (concat (map rstrip ls)) =
  List.filter (fun c => negb (is_space c)) (concat ls).
Proof.
  induction ls as [|l ls IH]; [done |]. simpl.
  by rewrite !List.filter_app, IH, filter_not_space_rstrip.
Qed.

Lemma filter_not_space_no_linebreak s :
  List.filter (fun c => negb (is_space c))
    (List.filter (fun c => negb (is_linebreak c)) s) =
  List.filter (fun c => negb (is_space c)) s.
Proof.
  induction s as [|c s IH]; [done |]. simpl.
  destruct (is_linebreak c) eqn:Hc; simpl.
  - by rewrite (is_linebreak_space _ Hc).
  - by rewrite IH.
Qed.

Lemma filter_not_space_clean_body body :
  List.filter (fun c => negb (is_space c)) (_clean_body body) =
  List.filter (fun c => negb (is_space c)) body.
Proof.
  unfold _clean_body, splitlines.
  rewrite filter_not_space_strip, filter_not_space_join.
  rewrite filter_not_space_concat_rstrip, concat_splitlines_from.
  apply filter_not_space_no_linebreak.
Qed.

Lemma clean_body_nil_iff body :
  _clean_body body = [] <-> Forall (fun c => is_space c = true) body.
Proof.
  split.
  - intros Hnil. apply filter_not_space_nil.
    by rewrite <- filter_not_space_clean_body, Hnil.
  - intros Hbody.
    pose proof (filter_not_space_clean_body body) as Hfilter.
    rewrite (filter_not_space_spaces body) in Hfilter by done.
    apply filter_not_space_nil in Hfilter.
    destruct (_clean_body body) as [|c r] eqn:Hclean; [done |].
    apply Forall_cons in Hfilter as [Hc _].
    assert (is_space c = false); [| congruence].
    apply (strip_head (join NL (map rstrip (splitlines body)))).
    unfold _clean_body in Hclean. by rewrite Hclean.
Qed.

(** X10.  [_clean_body] touches white space only: the characters which are
    not white space are those of the body, in the same order. *)
Theorem clean_body_keeps_text (body : str) :
  List.filter (fun c => negb (is_space c)) (_clean_body body) =
  List.filter (fun c => negb (is_space c)) body.
Proof. apply filter_not_space_clean_body. Qed.

(** X11.  The cleaned body is empty exactly when the body is made of white
    space only (or is empty); a review then gets its entry line alone, and
    an entry line with a preview line otherwise. *)
Theorem clean_body_empty_iff_blank (body : str) (r : RawReview.t) :
  (_clean_body body = [] <-> Forall (fun c => is_space c = true) body) /\
  length (review_entry r) =
    if decide (Forall (fun c => is_space c = true)
                 (or_str (RawReview.body r) []))
    then 1%nat else 2%nat.
Proof.
  split; [apply clean_body_nil_iff |].
  pose proof (review_entry_lines r) as Hentry. cbv zeta in Hentry.
  rewrite Hentry.
  pose proof (clean_body_nil_iff (or_str (RawReview.body r) [])) as Hnil.
  destruct (_clean_body (or_str (RawReview.body r) [])) as [|c s].
  - rewrite decide_True; [done | by apply Hnil].
  - rewrite decide_False; [done |]. intros Hblank. by apply Hnil in Hblank.
Qed.

Lemma elem_of_join c ls :
  c ∈ join NL ls -> c = 10%N \/ exists l, l ∈ ls /\ c ∈ l.
Proof.
  induction ls as [|p ps IH]; [by intros ?%elem_of_nil |].
  destruct ps as [|q ps].
  - simpl. intros Hc. right. exists p. split; [left | done].
  - rewrite join_cons_cons. intros [Hc|[Hc|Hc]%elem_of_app]%elem_of_app.
    + right. exists p. split; [left | done].
    + left. by apply list_elem_of_singleton in Hc.
    + destruct (IH Hc) as [?|(l & Hl & Hcl)]; [by left |].
      right. exists l. split; [by right | done].
Qed.

Lemma elem_of_rstrip c s : c ∈ rstrip s -> c ∈ s.
Proof.
  destruct (rstrip_spec s) as (after & Hs & _). intros Hc.
  rewrite Hs. apply elem_of_app. by left.
Qed.

Lemma length_rstrip s : (length (rstrip s) <= length s)%nat.
Proof.
  destruct (rstrip_spec s) as (after & Hs & _).
  rewrite Hs at 2. rewrite length_app. lia.
Qed.

Lemma length_strip s : (length (strip s) <= length s)%nat.
Proof.
  destruct (strip_infix s) as (before & after & Hs & _).
  rewrite Hs at 2. rewrite !length_app. lia.
Qed.

Lemma length_join_rstrip ls :
  (length (join NL (map rstrip ls)) <= length (join NL ls))%nat.
Proof.
  induction ls as [|p ps IH]; [done |]. destruct ps as [|q ps].
  - simpl. apply length_rstrip.
  - cbn [map] in *. rewrite !join_cons_cons, !length_app.
    pose proof (length_rstrip p). lia.
Qed.

(** In a text joined from lines which hold no line break and end with no
    white space, a newline follows a newline or a character which is not
    white space. *)
Lemma join_no_trailing_space ls a c b :
  Forall (fun l => Forall (fun d => is_linebreak d = false) l /\
                   forall d, last l = Some d -> is_space d = false) ls ->
  join NL ls = a ++ c :: 10%N :: b ->
  is_space c = false \/ c = 10%N.
Proof.
  intros Hls. revert a.
  induction Hls as [|p ps [Hp Hlast] Hps IH]; intros a.
  { simpl. by destruct a. }
  assert (10%N ∉ p) as Hnl.
  { intros Hin. rewrite Forall_forall in Hp. by specialize (Hp _ Hin). }
  destruct ps as [|q ps].
  - simpl. intros ->. destruct Hnl.
    apply elem_of_app. right. right. left.
  - rewrite join_cons_cons. intros Heq.
    apply app_eq_inv in Heq as [(k & -> & Hk)|(k & -> & Hk)].
    + destruct k as [|d k]; simpl in Hk.
      * injection Hk as -> _. by right.
      * injection Hk as <- Hk. destruct k as [|e k]; simpl in Hk.
        -- left. apply Hlast. by rewrite last_snoc.
        -- injection Hk as <- _. destruct Hnl.
           apply elem_of_app. right. right. left.
    + destruct k as [|d k]; simpl in Hk.
      * injection Hk as <- _. by right.
      * injection Hk as _ Hk. by apply (IH k).
Qed.

Lemma rstripped_lines_ok body :
  Forall (fun l => Forall (fun d => is_linebreak d = false) l /\
                   forall d, last l = Some d -> is_space d = false)
         (map rstrip (splitlines body)).
Proof.
  apply Forall_fmap.
  eapply Forall_impl; [by apply (splitlines_from_no_linebreak [] body) |].
  intros l Hl. simpl. split.
  - apply Forall_forall. intros d Hd%elem_of_rstrip.
    rewrite Forall_forall in Hl. by apply Hl.
  - by destruct (rstrip_spec l) as (_ & _ & _ & Hlast).
Qed.

Lemma clean_body_normal body :
  (forall c, head (_clean_body body) = Some c -> is_space c = false) /\
  (forall c, last (_clean_body body) = Some c -> is_space c = false) /\
  (forall c, c ∈ _clean_body body -> is_linebreak c = true -> c = 10%N) /\
  (forall a c b, _clean_body body = a ++ c :: 10%N :: b ->
     is_space c = false \/ c = 10%N) /\
  (length (_clean_body body) <= length body)%nat.
Proof.
  unfold _clean_body.
  destruct (strip_infix (join NL (map rstrip (splitlines body))))
    as (before & after & Hjoin & _).
  pose proof (rstripped_lines_ok body) as Hlines.
  split_and!.
  - apply strip_head.
  - apply strip_last.
  - intros c Hc Hbreak.
    assert (c ∈ join NL (map rstrip (splitlines body))) as Hin.
    { rewrite Hjoin. apply elem_of_app. right. apply elem_of_app. by left. }
    apply elem_of_join in Hin as [?|(l & Hl & Hcl)]; [done |].
    rewrite Forall_forall in Hlines. destruct (Hlines l Hl) as [Hno _].
    rewrite Forall_forall in Hno. specialize (Hno c Hcl). congruence.
  - intros a c b Heq. rewrite Heq in Hjoin.
    apply (join_no_trailing_space (map rstrip (splitlines body))
             (before ++ a) c (b ++ after)); [done |].
    rewrite Hjoin. by rewrite <- !app_assoc.
  - etransitivity; [apply length_strip |].
    etransitivity; [apply length_join_rstrip |].
    apply (length_join_splitlines_from [] body).
Qed.

(** X12.  The cleaned body neither begins nor ends with white space; its
    only line breaks are newlines; none of its lines ends with white
    space (a newline follows a newline or a character which is not white
    space); and it is not longer than the body. *)
Theorem clean_body_shape (body : str) :
  (forall c, head (_clean_body body) = Some c -> is_space c = false) /\
  (forall c, last (_clean_body body) = Some c -> is_space c = false) /\
  (forall c, c ∈ _clean_body body -> is_linebreak c = true -> c = 10%N) /\
  (forall a c b, _clean_body body = a ++ c :: 10%N :: b ->
     is_space c = false \/ c = 10%N) /\
  (length (_clean_body body) <= length body)%nat.
Proof. apply clean_body_normal. Qed.

Lemma splitlines_from_not_nil cur s :
  cur <> [] \/ s <> [] -> splitlines_from cur s <> [].
Proof.
  apply (splitlines_from_ind
           (fun cur s ls => cur <> [] \/ s <> [] -> ls <> [])); clear cur s.
  - intros [|c cur]; simpl; [by intros [?|?] | done].
  - intros cur c s _ IH _. apply IH. left. by destruct cur.
  - done.
  - done.
Qed.

(** On a text in the form which [_clean_body] produces, splitting into
    lines, stripping each line and joining is the identity. *)
Lemma join_rstrip_splitlines_from cur s :
  Forall (fun c => is_linebreak c = false) cur ->
  (forall c, c ∈ s -> is_linebreak c = true -> c = 10%N) ->
  (forall a c b, cur ++ s = a ++ c :: 10%N :: b ->
     is_space c = false \/ c = 10%N) ->
  (forall c, last (cur ++ s) = Some c -> is_space c = false) ->
  join NL (map rstrip (splitlines_from cur s)) = cur ++ s.
Proof.
  apply (splitlines_from_ind
           (fun cur s ls =>
              Forall (fun c => is_linebreak c = false) cur ->
              (forall c, c ∈ s -> is_linebreak c = true -> c = 10%N) ->
              (forall a c b, cur ++ s = a ++ c :: 10%N :: b ->
                 is_space c = false \/ c = 10%N) ->
              (forall c, last (cur ++ s) = Some c -> is_space c = false) ->
              join NL (map rstrip ls) = cur ++ s)); clear cur s.
  - intros cur _ _ _ Hlast. rewrite app_nil_r in *.
    destruct cur as [|c cur]; [done |]. simpl.
    destruct (last (c :: cur)) as [d|] eqn:Hd.
    + eapply rstrip_last_not_space; eauto.
    + by apply last_None in Hd.
  - intros cur c s Hc IH Hcur Hs Hadj Hlast.
    rewrite <- app_assoc in IH. apply IH.
    + apply Forall_app. split; [done | by constructor].
    + intros d Hd. apply Hs. by right.
    + done.
    + done.
  - intros cur c s Hc _ IH Hcur Hs Hadj Hlast.
    assert (c = 10%N) as -> by (apply Hs; [left | done]).
    assert (s <> []) as Hne.
    { intros ->. specialize (Hlast 10%N). rewrite last_snoc in Hlast.
      by specialize (Hlast eq_refl). }
    assert (rstrip cur = cur) as Hstrip.
    { destruct (last cur) as [d|] eqn:Hd.
      - eapply rstrip_last_not_space; [done |].
        apply last_Some in Hd as [a ->].
        destruct (Hadj a d s) as [?| ->]; [by rewrite <- app_assoc | done |].
        apply Forall_app in Hcur as [_ Hd]. by apply Forall_cons in Hd as [? _].
      - by apply last_None in Hd as ->. }
    pose proof (splitlines_from_not_nil [] s (or_intror Hne)) as Hrest.
    cbn [map]. destruct (splitlines_from [] s) as [|l ls]; [done |].
    cbn [map] in *. rewrite join_cons_cons, Hstrip, IH; [done | | | |].
    + constructor.
    + intros d Hd. apply Hs. by right.
    + intros a d b Heq. apply (Hadj (cur ++ 10%N :: a) d b).
      simpl in Heq. rewrite Heq. by rewrite <- app_assoc.
    + intros d Hd. apply Hlast. simpl in Hd.
      rewrite last_app_cons. destruct s; [done |].
      by rewrite last_cons_cons.
  - intros cur s _ _ Hs _ _.
    assert (13%N = 10%N); [| done]. apply Hs; [left | done].
Qed.

Lemma clean_body_fixpoint r :
  (forall c, head r = Some c -> is_space c = false) ->
  (forall c, last r = Some c -> is_space c = false) ->
  (forall c, c ∈ r -> is_linebreak c = true -> c = 10%N) ->
  (forall a c b, r = a ++ c :: 10%N :: b -> is_space c = false \/ c = 10%N) ->
  _clean_body r = r.
Proof.
  intros Hhead Hlast Hbreaks Hadj. unfold _clean_body, splitlines.
  rewrite join_rstrip_splitlines_from by (done || constructor).
  by apply strip_idle.
Qed.

(** X13.  Cleaning is idempotent: a cleaned body is left as it is. *)
Theorem clean_body_idempotent (body : str) :
  _clean_body (_clean_body body) = _clean_body body.
Proof.
  destruct (clean_body_normal body) as (Hhead & Hlast & Hbreaks & Hadj & _).
  by apply clean_body_fixpoint.
Qed.

(** ** The diff excerpt *)

Lemma splitlines_from_app cur l s :
  Forall (fun c => is_linebreak c = false) l ->
  splitlines_from cur (l ++ s) = splitlines_from (cur ++ l) s.
Proof.
  intros Hl. revert cur.
  induction Hl as [|c l Hc _ IH]; intros cur; simpl.
  - by rewrite app_nil_r.
  - rewrite Hc, IH. by rewrite <- app_assoc.
Qed.

Lemma splitlines_from_NL cur s :
  splitlines_from cur (10%N :: s) = cur :: splitlines_from [] s.
Proof. by destruct s. Qed.

Lemma length_splitlines_join ls l cur :
  Forall (Forall (fun c => is_linebreak c = false)) (l :: ls) ->
  (length (splitlines_from cur (join NL (l :: ls))) <= S (length ls))%nat.
Proof.
  revert l cur. induction ls as [|q ps IH]; intros l cur Hls.
  - apply Forall_cons in Hls as [Hl _]. simpl.
    rewrite <- (app_nil_r l), splitlines_from_app by done.
    simpl. destruct (cur ++ l); simpl; lia.
  - apply Forall_cons in Hls as [Hl Hls].
    rewrite join_cons_cons, splitlines_from_app by done.
    change (NL ++ join NL (q :: ps)) with (10%N :: join NL (q :: ps)).
    rewrite splitlines_from_NL. specialize (IH q [] Hls).
    cbn [length]. lia.
Qed.

Lemma length_join_tail p ps :
  (length (join NL ps) <= length (join NL (p :: ps)))%nat.
Proof.
  destruct ps as [|q ps]; [simpl; lia |].
  rewrite join_cons_cons, !length_app. lia.
Qed.

Lemma length_join_drop k ls :
  (length (join NL (drop k ls)) <= length (join NL ls))%nat.
Proof.
  revert ls. induction k as [|k IH]; intros [|p ps]; simpl; try lia.
  etransitivity; [apply IH | apply length_join_tail].
Qed.

Lemma slice_from_drop {A} start (l : list A) :
  exists k, slice_from start l = drop k l /\
    (start < 0 -> - start < Z.of_nat (length l) ->
     Z.of_nat (length (drop k l)) = - start).
Proof.
  unfold slice_from. eexists. split; [reflexivity |].
  intros Hneg Hlen. rewrite length_drop.
  destruct (Z.ltb_spec start 0); lia.
Qed.

Lemma extract_diff_hunk_tail_lines diff_hunk context_lines :
  0 < context_lines ->
  (Z.of_nat (length (splitlines
                       (_extract_diff_hunk_tail diff_hunk context_lines)))
   <= context_lines).
Proof.
  intros Hpos. unfold _extract_diff_hunk_tail.
  destruct (Z.gtb_spec (Z.of_nat (length (splitlines diff_hunk)))
              context_lines) as [Hlong|Hshort]; [| done].
  destruct (slice_from_drop (- context_lines) (splitlines diff_hunk))
    as (k & -> & Hlen).
  rewrite Z.opp_involutive in Hlen. specialize (Hlen ltac:(lia) Hlong).
  assert (Forall (Forall (fun c => is_linebreak c = false))
                 (drop k (splitlines diff_hunk))) as Hlines.
  { apply Forall_drop, (splitlines_from_no_linebreak [] diff_hunk).
    constructor. }
  destruct (drop k (splitlines diff_hunk)) as [|l ls]; [simpl; lia |].
  pose proof (length_splitlines_join ls l [] Hlines) as Hle.
  unfold splitlines. rewrite <- Hlen. apply Nat2Z.inj_le. exact Hle.
Qed.

(** X14.  For a positive number of context lines, as the default 6 is: the
    excerpt has at most that many lines, it is not longer than the hunk,
    and extracting the tail of an excerpt gives the excerpt. *)
Theorem extract_diff_hunk_tail_bounds (diff_hunk : str) (context_lines : Z) :
  0 < context_lines ->
  (Z.of_nat (length (splitlines
                       (_extract_diff_hunk_tail diff_hunk context_lines)))
   <= context_lines) /\
  (length (_extract_diff_hunk_tail diff_hunk context_lines) <=
   length diff_hunk)%nat /\
  _extract_diff_hunk_tail
    (_extract_diff_hunk_tail diff_hunk context_lines) context_lines =
  _extract_diff_hunk_tail diff_hunk context_lines.
Proof.
  intros Hpos.
  pose proof (extract_diff_hunk_tail_lines diff_hunk context_lines Hpos)
    as Hlines.
  split_and!.
  - done.
  - unfold _extract_diff_hunk_tail.
    destruct (Z.of_nat (length (splitlines diff_hunk)) >? context_lines);
      [| done].
    destruct (slice_from_drop (- context_lines) (splitlines diff_hunk))
      as (k & -> & _).
    etransitivity; [apply length_join_drop |].
    apply (length_join_splitlines_from [] diff_hunk).
  - unfold _extract_diff_hunk_tail at 1.
    destruct (Z.gtb_spec
                (Z.of_nat
                   (length (splitlines
                              (_extract_diff_hunk_tail diff_hunk
                                 context_lines))))
                context_lines); [lia | done].
Qed.

Lemma extract_diff_hunk_tail_bounds_witness :
  (Z.of_nat (length (splitlines
                       (_extract_diff_hunk_tail hunk_of_10_lines 6)))
   <= 6) /\
  (length (_extract_diff_hunk_tail hunk_of_10_lines 6) <=
   length hunk_of_10_lines)%nat /\
  _extract_diff_hunk_tail (_extract_diff_hunk_tail hunk_of_10_lines 6) 6 =
  _extract_diff_hunk_tail hunk_of_10_lines 6.
Proof. apply (extract_diff_hunk_tail_bounds hunk_of_10_lines 6). lia. Defined.

(** ** Suggestions *)

Lemma startswith_iff p s : startswith p s = true <-> exists b, s = p ++ b.
Proof.
  revert s. induction p as [|x p IH]; intros s; simpl.
  - split; [eauto | done].
  - destruct s as [|y s].
    + split; [done | by intros [b ?]].
    + rewrite andb_true_iff, N.eqb_eq, IH. split.
      * intros [-> [b ->]]. eauto.
      * intros [b [= -> ->]]. eauto.
Qed.

Lemma contains_iff needle s :
  contains needle s = true <-> exists a b, s = a ++ needle ++ b.
Proof.
  induction s as [|c s IH]; simpl.
  - rewrite orb_false_r, startswith_iff. split.
    + intros [b ->]. by exists [], b.
    + intros (a & b & Heq). symmetry in Heq.
      apply app_eq_nil in Heq as [-> Heq]. eauto.
  - rewrite orb_true_iff, startswith_iff, IH. split.
    + intros [[b ->]|(a & b & ->)]; [by exists [], b |].
      by exists (c :: a), b.
    + intros ([|d a] & b & Heq); simpl in Heq.
      * left. eauto.
      * injection Heq as <- ->. right. eauto.
Qed.

(** X15.  A comment is marked as a suggestion exactly when the body as
    received, before cleaning, contains the marker of a suggestion block
    somewhere; a record without body is not a suggestion. *)
Theorem is_suggestion_iff_marker (raw : RawComment.t) (c : ReviewComment.t) :
  make_comment raw = Ok c ->
  (ReviewComment.is_suggestion c = true <->
   exists body a b,
     RawComment.body raw = Some body /\
     body = a ++ lit "```suggestion" ++ b).
Proof.
  unfold make_comment.
  destruct (RawComment.id raw) as [i|]; [| done].
  destruct (RawComment.user raw) as [[[login|]]|]; simpl; try done.
  intros [= <-]. simpl. unfold _is_suggestion. rewrite contains_iff.
  destruct (RawComment.body raw) as [[|d body]|]; simpl.
  - split.
    + intros (a & b & Heq). by destruct a.
    + intros (body & a & b & [= <-] & Heq). by destruct a.
  - split.
    + intros (a & b & Heq). eauto.
    + intros (body' & a & b & [= <-] & Heq). eauto.
  - split.
    + intros (a & b & Heq). by destruct a.
    + by intros (body & a & b & ? & _).
Qed.

Lemma is_suggestion_iff_marker_witness :
  ReviewComment.is_suggestion
    {| ReviewComment.id := 1;
       ReviewComment.author := lit "alice";
       ReviewComment.body := _clean_body (lit "root on b");
       ReviewComment.path := lit "b.py";
       ReviewComment.line := Some 3;
       ReviewComment.diff_hunk := lit "@@ -1 +1 @@";
       ReviewComment.created_at := lit "2024-01-02T03:04:05Z";
       ReviewComment.html_url := lit "https://example.org/c";
       ReviewComment.in_reply_to_id := None;
       ReviewComment.is_suggestion := false;
       ReviewComment.author_association := lit "MEMBER" |} = true <->
  exists body a b,
    RawComment.body (sample_comment 1 "b.py" (Some 3) None "root on b") =
      Some body /\
    body = a ++ lit "```suggestion" ++ b.
Proof.
  apply (is_suggestion_iff_marker
           (sample_comment 1 "b.py" (Some 3) None "root on b")).
  reflexivity.
Defined.

(** ** The number of threads which the command line reports *)

Lemma count_from_skip sub k s :
  count_from sub k s = count_from sub 0 (drop k s).
Proof.
  revert s. induction k as [|k IH]; intros [|c s]; simpl; done.
Qed.

Lemma occurrences_drop sub k s :
  (forall j, (j < k)%nat -> startswith sub (drop j s) = false) ->
  occurrences sub s = occurrences sub (drop k s).
Proof.
  revert s. induction k as [|k IH]; intros s Hno; [done |].
  destruct s as [|c s]; [done |].
  cbn [occurrences drop].
  pose proof (Hno 0%nat ltac:(lia)) as H0. cbn [drop] in H0.
  rewrite H0. simpl. apply IH.
  intros j Hj. apply (Hno (S j)). lia.
Qed.

(** The marker does not overlap itself. *)
Lemma thread_marker_unbordered s j :
  startswith (lit "### Thread") s = true ->
  (1 <= j <= 9)%nat ->
  startswith (lit "### Thread") (drop j s) = false.
Proof.
  intros [b ->]%startswith_iff Hj.
  do 10 (destruct j as [|j]; [first [lia | reflexivity] |]). lia.
Qed.

Lemma count_from_occurrences s :
  count_from (lit "### Thread") 0 s = occurrences (lit "### Thread") s.
Proof.
  assert (forall n s, (length s <= n)%nat ->
            count_from (lit "### Thread") 0 s =
            occurrences (lit "### Thread") s) as Hall;
    [| by apply (Hall (length s))].
  clear s. induction n as [|n IH]; intros s Hlen.
  { destruct s; [done | simpl in Hlen; lia]. }
  destruct s as [|c s]; [done |].
  cbn [count_from occurrences]. simpl in Hlen.
  destruct (startswith (lit "### Thread") (c :: s)) eqn:Hstart.
  - change (length (lit "### Thread") - 1)%nat with 9%nat.
    rewrite count_from_skip, IH by (rewrite length_drop; lia).
    rewrite (occurrences_drop _ 9 s); [done |].
    intros j Hj.
    apply (thread_marker_unbordered (c :: s) (S j)); [done | lia].
  - simpl. apply IH. lia.
Qed.

Lemma startswith_app_r p s b :
  startswith p s = true -> startswith p (s ++ b) = true.
Proof.
  intros [b' ->]%startswith_iff. rewrite <- app_assoc.
  apply startswith_app.
Qed.

Lemma occurrences_app sub a b :
  (occurrences sub a + occurrences sub b <= occurrences sub (a ++ b))%nat.
Proof.
  induction a as [|c a IH]; [simpl; lia |].
  cbn [occurrences app].
  destruct (startswith sub (c :: a)) eqn:Hstart.
  - pose proof (startswith_app_r sub (c :: a) b Hstart) as Happ.
    cbn [app] in Happ. rewrite Happ. lia.
  - destruct (startswith sub (c :: a ++ b)); lia.
Qed.

Lemma occurrences_entry line :
  is_thread_entry line = true ->
  (1 <= occurrences (lit "### Thread") line)%nat.
Proof.
  intros [b ->]%startswith_iff.
  cbn [lit app occurrences N_of_ascii]. simpl. lia.
Qed.

Lemma occurrences_join_entries ls :
  (length (List.filter is_thread_entry ls) <=
   occurrences (lit "### Thread") (join NL ls))%nat.
Proof.
  assert (forall l, (length (List.filter is_thread_entry [l]) <=
                     occurrences (lit "### Thread") l)%nat) as Hone.
  { intros l. simpl. destruct (is_thread_entry l) eqn:Hl; simpl; [| lia].
    by apply occurrences_entry. }
  induction ls as [|p ps IH]; [done |]. destruct ps as [|q ps].
  - apply Hone.
  - rewrite join_cons_cons.
    pose proof (occurrences_app (lit "### Thread") p
                  (NL ++ join NL (q :: ps))) as Happ.
    pose proof (occurrences_app (lit "### Thread") NL (join NL (q :: ps)))
      as Hnl.
    specialize (Hone p).
    change (p :: q :: ps) with ([p] ++ q :: ps).
    rewrite List.filter_app, length_app. lia.
Qed.

(** X16.  The number of threads which the command line reports, the count
    of the marker of thread headings in the document, is at least the
    number of threads shown in the document. *)
Theorem threads_shown_at_least (lower : str -> str) (pr_info : PRInfo.t)
    (review_comments : list RawComment.t)
    (issue_comments : list RawIssueComment.t) (reviews : list RawReview.t)
    (filter_mode : str) :
  forallb has_required_keys review_comments = true ->
  exists ts markdown,
    _build_threads review_comments = Ok ts /\
    format_pr lower pr_info review_comments issue_comments reviews
      filter_mode = Ok markdown /\
    (length (apply_filter filter_mode ts) <= threads_shown markdown)%nat.
Proof.
  intros Hkeys.
  destruct (format_pr_ok lower pr_info review_comments issue_comments reviews
              filter_mode Hkeys) as (ts & Hts & _ & Hdoc).
  eexists ts, _. split_and!; [done | exact Hdoc |].
  unfold threads_shown, count. cbn [lit].
  change (count_from _ 0 ?s) with (count_from (lit "### Thread") 0 s).
  rewrite count_from_occurrences.
  etransitivity; [| apply occurrences_join_entries].
  unfold document_lines. rewrite !List.filter_app, !length_app.
  rewrite add_threads_entries, length_imap. lia.
Qed.

Lemma threads_shown_at_least_witness :
  exists ts markdown,
    _build_threads sample_comments = Ok ts /\
    format_pr ascii_lower sample_pr sample_comments [] [sample_review]
      (lit "all") = Ok markdown /\
    (length (apply_filter (lit "all") ts) <= threads_shown markdown)%nat.
Proof.
  apply (threads_shown_at_least ascii_lower sample_pr sample_comments []
           [sample_review] (lit "all")).
  reflexivity.
Defined.

(** The report can exceed the number of threads: here no thread is shown
    and a general comment quotes a heading. *)
Example threads_shown_overcounts :
  match format_pr ascii_lower sample_pr []
          [ {| RawIssueComment.user := sample_user "dave";
               RawIssueComment.author_association := None;
               RawIssueComment.created_at := None;
               RawIssueComment.body := Some (lit "see ### Thread 2");
               RawIssueComment.html_url := None |} ]
          [] (lit "all") with
  | Ok markdown => threads_shown markdown
  | Raise _ => 0%nat
  end = 1%nat.
Proof. reflexivity. Qed.

(** ** The URL of a pull request *)

Lemma lstrip_chars_spec chars s :
  exists stripped,
    s = stripped ++ lstrip_chars chars s /\
    Forall (fun c => c ∈ chars) stripped /\
    forall c, head (lstrip_chars chars s) = Some c -> c ∉ chars.
Proof.
  induction s as [|c s (stripped & Hs & Hstripped & Hhead)]; simpl.
  - by exists [].
  - case_bool_decide as Hc.
    + exists (c :: stripped).
      split_and!; [simpl; congruence | by constructor | done].
    + exists []. split_and!; [done | done |]. simpl. congruence.
Qed.

Lemma lstrip_chars_app_cons chars a c b :
  c ∉ chars ->
  lstrip_chars chars (a ++ c :: b) = lstrip_chars chars a ++ c :: b.
Proof.
  intros Hc. induction a as [|d a IH]; simpl.
  - by rewrite bool_decide_eq_false_2.
  - by case_bool_decide.
Qed.

Lemma lstrip_chars_all chars a s :
  Forall (fun c => c ∈ chars) a ->
  lstrip_chars chars (a ++ s) = lstrip_chars chars s.
Proof.
  induction 1 as [|c a Hc _ IH]; simpl; [done |].
  by rewrite bool_decide_eq_true_2.
Qed.

Lemma rstrip_chars_spec chars s :
  exists stripped,
    s = rstrip_chars chars s ++ stripped /\
    Forall (fun c => c ∈ chars) stripped.
Proof.
  unfold rstrip_chars.
  destruct (lstrip_chars_spec chars (rev s)) as (stripped & Hs & Hall & _).
  exists (rev stripped). split.
  - rewrite <- rev_app_distr, <- Hs. by rewrite rev_involutive.
  - by apply Forall_rev.
Qed.

Lemma rstrip_chars_snoc_app chars a c b :
  c ∉ chars ->
  rstrip_chars chars (a ++ c :: b) = a ++ c :: rstrip_chars chars b.
Proof.
  intros Hc. unfold rstrip_chars.
  rewrite rev_app_distr. simpl. rewrite <- app_assoc. simpl.
  rewrite lstrip_chars_app_cons by done.
  rewrite rev_app_distr. simpl. by rewrite rev_involutive, <- app_assoc.
Qed.

Lemma split_from_app sep cur l s :
  sep ∉ l -> split_from sep cur (l ++ s) = split_from sep (cur ++ l) s.
Proof.
  revert cur. induction l as [|c l IH]; intros cur Hl; simpl.
  - by rewrite app_nil_r.
  - apply not_elem_of_cons in Hl as [Hc Hl].
    destruct (N.eqb_spec c sep) as [->|_]; [done |].
    rewrite IH by done. by rewrite <- app_assoc.
Qed.

Lemma split_from_sep sep cur s :
  split_from sep cur (sep :: s) = cur :: split_from sep [] s.
Proof. simpl. by rewrite N.eqb_refl. Qed.

Lemma split_from_cons sep cur s :
  exists part rest, split_from sep cur s = part :: rest.
Proof.
  revert cur. induction s as [|c s IH]; intros cur; simpl; [eauto |].
  destruct (c =? sep)%N; eauto.
Qed.

Lemma join_split_from sep cur s :
  join [sep] (split_from sep cur s) = cur ++ s.
Proof.
  revert cur. induction s as [|c s IH]; intros cur; simpl.
  - by rewrite app_nil_r.
  - destruct (N.eqb_spec c sep) as [->|_].
    + specialize (IH []).
      destruct (split_from_cons sep [] s) as (part & rest & Hsplit).
      rewrite Hsplit in *. rewrite join_cons_cons, IH. done.
    + rewrite IH. by rewrite <- app_assoc.
Qed.

Lemma split_from_no_sep sep cur s :
  sep ∉ cur -> Forall (fun part => sep ∉ part) (split_from sep cur s).
Proof.
  revert cur. induction s as [|c s IH]; intros cur Hcur; simpl.
  - by repeat constructor.
  - destruct (N.eqb_spec c sep) as [->|Hne].
    + constructor; [done |]. apply IH. by intros ?%elem_of_nil.
    + apply IH. rewrite elem_of_app, list_elem_of_singleton.
      intros [?|?]; [done | congruence].
Qed.

Lemma strip_chars_core chars lead core tail c d :
  Forall (fun x => x ∈ chars) lead ->
  head core = Some c -> c ∉ chars ->
  last core = Some d -> d ∉ chars ->
  strip_chars chars (lead ++ core ++ tail) =
  core ++ rstrip_chars chars tail.
Proof.
  intros Hlead Hhead Hc Hlast Hd. unfold strip_chars.
  rewrite lstrip_chars_all by done.
  assert (lstrip_chars chars (core ++ tail) = core ++ tail) as ->.
  { destruct core as [|c' core]; [done |]. injection Hhead as ->.
    cbn [app lstrip_chars]. by rewrite bool_decide_eq_false_2. }
  apply last_Some in Hlast as [core' ->].
  rewrite <- !app_assoc. by apply rstrip_chars_snoc_app.
Qed.

Lemma split_pull_path owner repo number tail :
  SLASH ∉ owner -> SLASH ∉ repo -> SLASH ∉ number ->
  tail = [] \/ head tail = Some SLASH ->
  exists rest,
    split SLASH
      (owner ++ SLASH :: repo ++ SLASH :: lit "pull" ++ SLASH ::
       number ++ tail) =
    owner :: repo :: lit "pull" :: number :: rest.
Proof.
  intros Howner Hrepo Hnumber Htail. unfold split.
  rewrite split_from_app, split_from_sep by done.
  rewrite split_from_app, split_from_sep by done.
  assert (SLASH ∉ lit "pull") as Hpull
    by (refine (bool_decide_unpack _ _); vm_compute; exact I).
  rewrite split_from_app, split_from_sep by done.
  rewrite split_from_app by done. simpl.
  destruct Htail as [->|Htail]; [by exists [] |].
  destruct tail as [|t tail]; [done |]. injection Htail as ->.
  rewrite split_from_sep. eauto.
Qed.

(** X17.  A path made of an owner, a repository, the segment pull and a
    number is accepted, whatever slashes surround it and whatever segments
    follow the number: [parse_pr_url] returns the owner, the repository and
    the integer which the number denotes. *)
Theorem parse_pr_url_accepts (url_path : str -> str)
    (int_of_str : str -> option Z) (url lead owner repo number tail : str)
    (pr_number : Z) :
  url_path url =
    lead ++ owner ++ lit "/" ++ repo ++ lit "/pull/" ++ number ++ tail ->
  Forall (fun c => c = SLASH) lead ->
  SLASH ∉ owner -> SLASH ∉ repo -> SLASH ∉ number ->
  owner <> [] -> number <> [] ->
  tail = [] \/ head tail = Some SLASH ->
  int_of_str number = Some pr_number ->
  parse_pr_url url_path int_of_str url = Some (owner, repo, pr_number).
Proof.
  intros Hpath Hlead Howner Hrepo Hnumber Hne Hnum Htail Hint.
  set (core := owner ++ SLASH :: repo ++ SLASH :: lit "pull" ++ SLASH ::
               number).
  assert (url_path url = lead ++ core ++ tail) as Hpath'.
  { rewrite Hpath. unfold core. f_equal.
    repeat (rewrite <- app_assoc; cbn [app lit]). done. }
  assert (forall c, c <> SLASH -> c ∉ [SLASH]) as Hnot
    by (intros c Hc ?%list_elem_of_singleton; done).
  assert (exists c, head core = Some c /\ c <> SLASH) as (c & Hc & Hc').
  { destruct owner as [|o owner]; [done |]. exists o. split; [done |].
    intros ->. apply Howner. left. }
  assert (exists d, last core = Some d /\ d <> SLASH) as (d & Hd & Hd').
  { destruct (last_is_Some number) as [_ [d Hd]]; [done |]. exists d.
    split.
    - unfold core. rewrite last_app_cons.
      change (SLASH :: repo ++ ?x) with ((SLASH :: repo) ++ x).
      rewrite last_app_cons.
      change (SLASH :: lit "pull" ++ ?x) with ((SLASH :: lit "pull") ++ x).
      rewrite last_app_cons.
      apply last_Some in Hd as [number' ->].
      change (SLASH :: number' ++ [d]) with ((SLASH :: number') ++ [d]).
      apply last_snoc.
    - intros ->. apply Hnumber. by apply last_Some_elem_of. }
  unfold parse_pr_url. rewrite Hpath'.
  rewrite (strip_chars_core [SLASH] lead core tail c d); auto;
    [| eapply Forall_impl; [exact Hlead |]; intros x ->; left].
  destruct (rstrip_chars_spec [SLASH] tail) as (stripped & Htail' & _).
  destruct (split_pull_path owner repo number (rstrip_chars [SLASH] tail))
    as [rest Hrest]; try done.
  { destruct (rstrip_chars [SLASH] tail) as [|t tail'] eqn:Hstrip;
      [by left | right].
    destruct Htail as [->|Htail]; [done |].
    rewrite Htail' in Htail. simpl in Htail. by injection Htail as ->. }
  assert (core ++ rstrip_chars [SLASH] tail =
          owner ++ SLASH :: repo ++ SLASH :: lit "pull" ++ SLASH ::
          number ++ rstrip_chars [SLASH] tail) as ->.
  { unfold core. repeat (rewrite <- app_assoc; cbn [app lit]). done. }
  rewrite Hrest. simpl. by rewrite Hint.
Qed.

Lemma parse_pr_url_accepts_witness :
  parse_pr_url sample_url_path sample_int_of_str
    (lit "https://github.com/octo/demo/pull/12/files") =
  Some (lit "octo", lit "demo", 12).
Proof.
  apply (parse_pr_url_accepts sample_url_path sample_int_of_str
           (lit "https://github.com/octo/demo/pull/12/files")
           (lit "/") (lit "octo") (lit "demo") (lit "12") (lit "/files") 12).
  - reflexivity.
  - by repeat constructor.
  - refine (bool_decide_unpack _ _). vm_compute. exact I.
  - refine (bool_decide_unpack _ _). vm_compute. exact I.
  - refine (bool_decide_unpack _ _). vm_compute. exact I.
  - discriminate.
  - discriminate.
  - right. reflexivity.
  - reflexivity.
Defined.

Lemma strip_chars_head chars s c :
  head (strip_chars chars s) = Some c -> c ∉ chars.
Proof.
  destruct (lstrip_chars_spec chars s) as (_ & _ & _ & Hhead).
  unfold strip_chars. destruct (lstrip_chars chars s) as [|d r]; [done |].
  specialize (Hhead d eq_refl).
  pose proof (rstrip_chars_snoc_app chars [] d r Hhead) as Hstrip.
  simpl in Hstrip. rewrite Hstrip. simpl. congruence.
Qed.

(** X18.  When [parse_pr_url] returns, the path without the slashes at its
    ends is made of the owner, the repository, the segment pull, a number
    segment and possibly further segments, separated by slashes; the owner
    is not empty, owner, repository and number segment hold no slash, and
    the result is the integer of the number segment.  Any other path makes
    it exit. *)
Theorem parse_pr_url_sound (url_path : str -> str)
    (int_of_str : str -> option Z) (url owner repo : str) (pr_number : Z) :
  parse_pr_url url_path int_of_str url = Some (owner, repo, pr_number) ->
  owner <> [] /\ (SLASH ∉ owner) /\ (SLASH ∉ repo) /\
  exists number rest,
    (SLASH ∉ number) /\
    int_of_str number = Some pr_number /\
    strip_chars [SLASH] (url_path url) =
      join (lit "/") (owner :: repo :: lit "pull" :: number :: rest).
Proof.
  unfold parse_pr_url, split.
  pose proof (join_split_from SLASH [] (strip_chars [SLASH] (url_path url)))
    as Hjoin.
  rewrite app_nil_l in Hjoin.
  pose proof (split_from_no_sep SLASH []
                (strip_chars [SLASH] (url_path url))) as Hparts.
  pose proof (strip_chars_head [SLASH] (url_path url)) as Hhead.
  destruct (split_from SLASH [] (strip_chars [SLASH] (url_path url)))
    as [|p0 [|p1 [|p2 [|p3 rest]]]]; try done.
  cbn [length Nat.ltb Nat.leb orb lookup list_lookup].
  case_bool_decide as Hpull; [| done]. injection Hpull as ->. simpl.
  destruct (int_of_str p3) as [k|] eqn:Hint; [| done].
  intros [= -> -> ->].
  specialize (Hparts ltac:(by intros ?%elem_of_nil)).
  apply Forall_cons in Hparts as [Howner Hparts].
  apply Forall_cons in Hparts as [Hrepo Hparts].
  apply Forall_cons in Hparts as [_ Hparts].
  apply Forall_cons in Hparts as [Hnumber _].
  split_and!; try done.
  - intros ->. rewrite <- Hjoin in Hhead. simpl in Hhead.
    apply (Hhead SLASH eq_refl). left.
  - exists p3, rest. split_and!; try done.
Qed.

Lemma parse_pr_url_sound_witness :
  lit "octo" <> [] /\ (SLASH ∉ lit "octo") /\ (SLASH ∉ lit "demo") /\
  exists number rest,
    (SLASH ∉ number) /\
    sample_int_of_str number = Some 12 /\
    strip_chars [SLASH]
      (sample_url_path (lit "https://github.com/octo/demo/pull/12/files")) =
      join (lit "/")
        (lit "octo" :: lit "demo" :: lit "pull" :: number :: rest).
Proof.
  apply (parse_pr_url_sound sample_url_path sample_int_of_str
           (lit "https://github.com/octo/demo/pull/12/files")).
  reflexivity.
Defined.

(** ** The body of a rendered comment *)

(** A text whose only line breaks are newlines and which does not end with
    one is the join of its lines. *)
Lemma join_splitlines_from cur s :
  (forall c, c ∈ s -> is_linebreak c = true -> c = 10%N) ->
  (forall c, last (cur ++ s) = Some c -> is_linebreak c = false) ->
  join NL (splitlines_from cur s) = cur ++ s.
Proof.
  apply (splitlines_from_ind
           (fun cur s ls =>
              (forall c, c ∈ s -> is_linebreak c = true -> c = 10%N) ->
              (forall c, last (cur ++ s) = Some c ->
                         is_linebreak c = false) ->
              join NL ls = cur ++ s)); clear cur s.
  - intros cur _ _. rewrite app_nil_r. by destruct cur.
  - intros cur c s Hc IH Hs Hlast. rewrite <- app_assoc in IH. apply IH.
    + intros d Hd. apply Hs. by right.
    + done.
  - intros cur c s Hc _ IH Hs Hlast.
    assert (c = 10%N) as -> by (apply Hs; [left | done]).
    assert (s <> []) as Hne.
    { intros ->. specialize (Hlast 10%N). rewrite last_snoc in Hlast.
      by specialize (Hlast eq_refl). }
    pose proof (splitlines_from_not_nil [] s (or_intror Hne)) as Hrest.
    destruct (splitlines_from [] s) as [|l ls]; [done |].
    rewrite join_cons_cons, IH; [done | |].
    + intros d Hd. apply Hs. by right.
    + intros d Hd. apply Hlast. simpl in Hd.
      rewrite last_app_cons. destruct s; [done |].
      by rewrite last_cons_cons.
  - intros cur s _ Hs _.
    assert (13%N = 10%N); [| done]. apply Hs; [left | done].
Qed.

Lemma join_splitlines_clean_body body :
  join NL (splitlines (_clean_body body)) = _clean_body body.
Proof.
  destruct (clean_body_normal body) as (_ & Hlast & Hbreaks & _).
  apply (join_splitlines_from [] (_clean_body body)); [done |].
  intros c Hc. specialize (Hlast c Hc).
  destruct (is_linebreak c) eqn:Hbreak; [| done].
  apply is_linebreak_space in Hbreak. congruence.
Qed.

Lemma join_comment_lines h1 h2 ls :
  join NL (((([] ++ [h1]) ++ [h2]) ++ [[]]) ++ ls) =
  h1 ++ NL ++ h2 ++ NL ++
  match ls with
  | [] => []
  | _ :: _ => NL ++ join NL ls
  end.
Proof. destruct ls; cbn [app]; by rewrite !join_cons_cons. Qed.

(** X19.  In the rendering of the root of a thread, the body of the
    comment, which the builder has cleaned, stands as it is: the rendering
    is the line of the author, the line of the link, and, when the body is
    not empty, a blank line and the body. *)
Theorem render_root_comment_body (lower : str -> str) (raw : RawComment.t)
    (c : ReviewComment.t) :
  make_comment raw = Ok c ->
  ReviewComment.body c = _clean_body (or_str (RawComment.body raw) []) /\
  _render_comment_body lower c [] =
    lit "**@" ++ ReviewComment.author c ++ lit "** (" ++
    lower (ReviewComment.author_association c) ++ lit ") " ++
    MIDDLE_DOT ++ lit " " ++ take 10 (ReviewComment.created_at c) ++ NL ++
    lit "[view on GitHub](" ++ ReviewComment.html_url c ++ lit ")" ++ NL ++
    match ReviewComment.body c with
    | [] => []
    | _ :: _ => NL ++ ReviewComment.body c
    end.
Proof.
  intros Hc.
  assert (ReviewComment.body c =
          _clean_body (or_str (RawComment.body raw) [])) as Hbody.
  { unfold make_comment in Hc.
    destruct (RawComment.id raw) as [i|]; [| done].
    destruct (RawComment.user raw) as [[[login|]]|]; simpl in Hc; try done.
    by injection Hc as <-. }
  split; [done |].
  pose proof (join_splitlines_clean_body (or_str (RawComment.body raw) []))
    as Hjoin.
  rewrite <- Hbody in Hjoin. unfold _render_comment_body.
  cbv zeta. rewrite map_id, join_comment_lines. unfold splitlines in *.
  destruct (ReviewComment.body c) as [|d body] eqn:Hd.
  - cbn [splitlines_from app]. by rewrite <- !app_assoc.
  - assert (d :: body <> []) as Hnil by done.
    pose proof (splitlines_from_not_nil [] (d :: body) (or_intror Hnil))
      as Hne.
    destruct (splitlines_from [] (d :: body)) as [|l ls]; [done |].
    rewrite Hjoin. cbn [app]. by rewrite <- !app_assoc.
Qed.

Lemma render_root_comment_body_witness :
  ReviewComment.body (CommentThread.root sample_open_thread) =
    _clean_body
      (or_str
         (RawComment.body (sample_comment 2 "a.py" None None "root on a"))
         []) /\
  _render_comment_body ascii_lower (CommentThread.root sample_open_thread)
    [] =
    lit "**@" ++
    ReviewComment.author (CommentThread.root sample_open_thread) ++
    lit "** (" ++
    ascii_lower
      (ReviewComment.author_association
         (CommentThread.root sample_open_thread)) ++
    lit ") " ++ MIDDLE_DOT ++ lit " " ++
    take 10 (ReviewComment.created_at (CommentThread.root sample_open_thread))
    ++ NL ++
    lit "[view on GitHub](" ++
    ReviewComment.html_url (CommentThread.root sample_open_thread) ++
    lit ")" ++ NL ++
    match ReviewComment.body (CommentThread.root sample_open_thread) with
    | [] => []
    | _ :: _ => NL ++ ReviewComment.body (CommentThread.root sample_open_thread)
    end.
Proof.
  apply (render_root_comment_body ascii_lower
           (sample_comment 2 "a.py" None None "root on a")).
  reflexivity.
Defined.

(** ** The order of the threads *)

Lemma StronglySorted_lookup_lt {A} (R : relation A) l i j x y :
  StronglySorted R l -> l !! i = Some x -> l !! j = Some y ->
  (i < j)%nat -> R x y.
Proof.
  intros Hsorted. revert i j.
  induction Hsorted as [|z l Hsorted IH Hz]; intros i j Hi Hj Hlt.
  - done.
  - destruct j as [|j]; [lia |]. simpl in Hj. destruct i as [|i].
    + injection Hi as <-. rewrite Forall_forall in Hz.
      by eapply Hz, list_elem_of_lookup_2.
    + simpl in Hi. apply (IH i j); [done | done | lia].
Qed.

(** X20.  A thread whose key (path, line or 0) is smaller than the key of
    another comes before it in the result; so, in one file, a thread
    without line comes before every thread with a positive line. *)
Theorem build_threads_smaller_key_first (raws : list RawComment.t) :
  forallb has_required_keys raws = true ->
  exists ts,
    _build_threads raws = Ok ts /\
    (forall i j t1 t2,
       ts !! i = Some t1 -> ts !! j = Some t2 ->
       key_ltb (thread_key t1) (thread_key t2) = true -> (i < j)%nat) /\
    (forall i j t1 t2 n,
       ts !! i = Some t1 -> ts !! j = Some t2 ->
       ReviewComment.path (CommentThread.root t1) =
       ReviewComment.path (CommentThread.root t2) ->
       ReviewComment.line (CommentThread.root t1) = None ->
       ReviewComment.line (CommentThread.root t2) = Some n -> 0 < n ->
       (i < j)%nat).
Proof.
  intros Hkeys.
  destruct (build_threads_ok_sorted raws (lit "all") Hkeys)
    as (ts & Hts & Hsorted).
  rewrite apply_filter_other in Hsorted by done.
  exists ts. split; [done |].
  assert (forall i j t1 t2,
            ts !! i = Some t1 -> ts !! j = Some t2 ->
            key_ltb (thread_key t1) (thread_key t2) = true -> (i < j)%nat)
    as Hfirst.
  { intros i j t1 t2 Hi Hj Hlt.
    destruct (decide (i < j)%nat) as [|Hge]; [done |]. exfalso.
    assert (thread_key t2 = thread_key t1) as Heq.
    { apply key_le_antisym; [| by apply key_ltb_le].
      destruct (decide (i = j)) as [->|Hne].
      - assert (t1 = t2) as -> by congruence.
        apply key_nltb_le, key_ltb_irrefl.
      - apply (StronglySorted_lookup_lt thread_le ts j i t2 t1);
          [done | done | done | lia]. }
    rewrite Heq, key_ltb_irrefl in Hlt. done. }
  split; [done |].
  intros i j t1 t2 n Hi Hj Hpath Hline1 Hline2 Hn.
  apply (Hfirst i j t1 t2 Hi Hj).
  unfold key_ltb, thread_key. simpl.
  rewrite bool_decide_eq_true_2 by done. rewrite Hline1, Hline2. simpl.
  destruct (Z.eqb_spec n 0); [lia |]. by apply Z.ltb_lt.
Qed.

Lemma build_threads_smaller_key_first_witness :
  exists ts,
    _build_threads sample_comments = Ok ts /\
    (forall i j t1 t2,
       ts !! i = Some t1 -> ts !! j = Some t2 ->
       key_ltb (thread_key t1) (thread_key t2) = true -> (i < j)%nat) /\
    (forall i j t1 t2 n,
       ts !! i = Some t1 -> ts !! j = Some t2 ->
       ReviewComment.path (CommentThread.root t1) =
       ReviewComment.path (CommentThread.root t2) ->
       ReviewComment.line (CommentThread.root t1) = None ->
       ReviewComment.line (CommentThread.root t2) = Some n -> 0 < n ->
       (i < j)%nat).
Proof.
  apply (build_threads_smaller_key_first sample_comments). reflexivity.
Defined.

Lemma make_comments_Permutation raws raws' cs :
  raws ≡ₚ raws' -> make_comments raws = Ok cs ->
  exists cs', make_comments raws' = Ok cs' /\ cs ≡ₚ cs'.
Proof.
  intros Hperm. revert cs.
  induction Hperm as [|raw raws raws' _ IH|raw1 raw2 raws|raws1 raws2 raws3 _ IH1 _ IH2];
    intros cs; simpl.
  - intros [= <-]. by exists [].
  - destruct (make_comment raw) as [c|]; simpl; [| done].
    destruct (make_comments raws) as [cs0|]; simpl; [| done].
    intros [= <-]. destruct (IH cs0 eq_refl) as (cs' & -> & Hcs').
    simpl. exists (c :: cs'). split; [done | by constructor].
  - destruct (make_comment raw1) as [c1|]; simpl;
      destruct (make_comment raw2) as [c2|]; simpl; try done.
    destruct (make_comments raws) as [cs0|]; simpl; [| done].
    intros [= <-]. exists (c1 :: c2 :: cs0). split; [done | constructor].
  - intros Hcs. destruct (IH1 cs Hcs) as (cs2 & Hcs2 & Hperm12).
    destruct (IH2 cs2 Hcs2) as (cs3 & Hcs3 & Hperm23).
    exists cs3. split; [done | by etransitivity].
Qed.

Lemma sorted_threads_of cs :
  sort_by thread_key key_ltb (linked_threads cs) =
  map (thread_of cs)
      (map CommentThread.root
           (sort_by thread_key key_ltb (linked_threads cs))).
Proof.
  rewrite map_map. symmetry. erewrite map_ext_in; [apply map_id |].
  intros t (root & _ & _ & ->)%list_elem_of_In%elem_of_sorted_threads.
  done.
Qed.

Lemma sorted_roots_perm cs :
  map CommentThread.root (sort_by thread_key key_ltb (linked_threads cs))
  ≡ₚ filter is_root cs.
Proof.
  rewrite (sort_by_perm thread_key key_ltb). by rewrite linked_threads_roots.
Qed.

Lemma sorted_roots_sorted cs :
  StronglySorted (fun c1 c2 => key_le (comment_key c1) (comment_key c2))
    (map CommentThread.root
         (sort_by thread_key key_ltb (linked_threads cs))).
Proof.
  apply (StronglySorted_fmap CommentThread.root thread_le); [done |].
  apply (sort_by_sorted thread_key key_ltb key_le);
    eauto using key_ltb_le, key_nltb_le, key_le_trans.
Qed.

(** X21.  When the roots have pairwise different keys, the order of the
    threads does not depend on the order of the input: two inputs with the
    same records give the same roots in the same order, and each thread
    has the same replies up to their order, which follows the input. *)
Theorem build_threads_order_independent (raws raws' : list RawComment.t)
    (cs : list ReviewComment.t) :
  make_comments raws = Ok cs ->
  raws ≡ₚ raws' ->
  NoDup (map comment_key (filter is_root cs)) ->
  exists ts ts',
    _build_threads raws = Ok ts /\ _build_threads raws' = Ok ts' /\
    map CommentThread.root ts = map CommentThread.root ts' /\
    Forall2 (fun t t' =>
               CommentThread.root t = CommentThread.root t' /\
               CommentThread.replies t ≡ₚ CommentThread.replies t')
            ts ts'.
Proof.
  intros Hcs Hperm Hkeys.
  destruct (make_comments_Permutation raws raws' cs Hperm Hcs)
    as (cs' & Hcs' & Hperm').
  exists (sort_by thread_key key_ltb (linked_threads cs)),
         (sort_by thread_key key_ltb (linked_threads cs')).
  rewrite !build_threads_eq, Hcs, Hcs'. do 2 (split; [done |]).
  assert (map CommentThread.root
              (sort_by thread_key key_ltb (linked_threads cs)) =
          map CommentThread.root
              (sort_by thread_key key_ltb (linked_threads cs'))) as Hroots.
  { apply (StronglySorted_unique_strong
             (fun c1 c2 => key_le (comment_key c1) (comment_key c2)));
      [| apply sorted_roots_sorted | apply sorted_roots_sorted |].
    - intros c1 c2 Hc1 Hc2 H12 H21.
      rewrite sorted_roots_perm in Hc1.
      rewrite sorted_roots_perm, <- Hperm' in Hc2.
      eapply (NoDup_fmap_eq comment_key); eauto.
      by apply key_le_antisym.
    - by rewrite !sorted_roots_perm, Hperm'. }
  split; [done |].
  rewrite (sorted_threads_of cs), (sorted_threads_of cs'), <- Hroots.
  apply Forall2_fmap, Forall_Forall2_diag, Forall_forall.
  intros root _. simpl. split; [done |]. by rewrite Hperm'.
Qed.

Lemma build_threads_order_independent_witness :
  exists ts ts',
    _build_threads sample_distinct = Ok ts /\
    _build_threads (rev sample_distinct) = Ok ts' /\
    map CommentThread.root ts = map CommentThread.root ts' /\
    Forall2 (fun t t' =>
               CommentThread.root t = CommentThread.root t' /\
               CommentThread.replies t ≡ₚ CommentThread.replies t')
            ts ts'.
Proof.
  destruct (make_comments sample_distinct) as [cs|] eqn:Hcs;
    [| vm_compute in Hcs; discriminate].
  apply (build_threads_order_independent sample_distinct
           (rev sample_distinct) cs).
  - exact Hcs.
  - apply Permutation_rev.
  - vm_compute in Hcs. injection Hcs as <-.
    refine (bool_decide_unpack _ _). vm_compute. exact I.
Defined.
